(** * Poisson factorization with Pyro: BPF and MMPF (hyperparameter.py)

    A shallow embedding of the two classes of [hyperparameter.py], of the
    Python constructs they rely on (positional arguments, unbound locals,
    iterators, exceptions) and of the part of the Pyro runtime they drive
    (parameter store, traces, plates, replay, the SVI step).

    Conventions.  A model or guide is a computation in a state and
    exception monad; the state holds Pyro's global parameter store, the
    trace of the current run, the trace being replayed, the enclosing
    vectorized plates and the one Python local that is an iterator.
    Python locals that a loop rebinds are threaded through the loop as an
    accumulator.  Random draws come from an oracle, so that every
    statement holds for all draws.  Python is taken to be 3.7 or later,
    Pyro to be a release that has [pyro.plate]; validation of
    distribution arguments is not modelled. *)

From stdpp Require Import base gmap strings list.
From Stdlib Require Import ZArith Lia.

Open Scope string_scope.
Open Scope list_scope.
Open Scope nat_scope.

(** ** Tensor elements

    The element type of tensors (floats in the source) is kept abstract:
    only the operations the program performs on elements are required. *)

Class Numeric (num : Type) := {
  fzero : num;
  fone : num;                    (* 1.0 *)
  fadd : num → num → num;
  fmul : num → num → num;
  of_nat : nat → num;             (* integer-valued elements: arange *)
  to_index : num → nat            (* an integer element used as an index *)
}.

(** ** Python exceptions, by class name *)

Inductive exn := PyErr (cls : string).

#[global] Instance exn_eq_dec : EqDecision exn.
Proof. solve_decision. Defined.

Definition TypeError := PyErr "TypeError".
Definition UnboundLocalError := PyErr "UnboundLocalError".
Definition ValueError := PyErr "ValueError".
Definition StopIteration := PyErr "StopIteration".
Definition IndexError := PyErr "IndexError".
Definition RuntimeError := PyErr "RuntimeError".
Definition ZeroDivisionError := PyErr "ZeroDivisionError".

(** What a Python call gives its caller: a return value or an exception. *)
Inductive result (A : Type) :=
| Returns (v : A)
| Raises (e : exn).
Arguments Returns {A} v.
Arguments Raises {A} e.

(** ** Names

    A site or parameter name is a format string with its arguments:
    ['q_au_{}'.format(u)] is [("q_au_{}", [u])]. *)

Abbreviation name := (string * list nat)%type.

(** An observed rating: [(user, item, count)]. *)
Abbreviation rating num := (nat * nat * num)%type.

Section Runtime.
Context {num : Type} `{Numeric num}.

(** ** Tensors of dimension at most two, and their shapes *)

Inductive tensor :=
| T0 (x : num)
| T1 (v : list num)
| T2 (rows : list (list num)).

Inductive shape :=
| S0
| S1 (n : nat)
| S2 (r c : nat).

Definition shape_of (t : tensor) : shape :=
  match t with
  | T0 _ => S0
  | T1 v => S1 (length v)
  | T2 rows => S2 (length rows) (match rows with [] => 0 | r :: _ => length r end)
  end.

(** torch broadcasting of one dimension, and of two shapes. *)
Definition bdim (n m : nat) : option nat :=
  if decide (n = m) then Some n
  else if decide (n = 1) then Some m
  else if decide (m = 1) then Some n
  else None.

Definition broadcast (a b : shape) : option shape :=
  match a, b with
  | S0, x | x, S0 => Some x
  | S1 n, S1 m => S1 <$> bdim n m
  | S1 n, S2 r c | S2 r c, S1 n => S2 r <$> bdim c n
  | S2 r c, S2 r' c' =>
      match bdim r r', bdim c c' with
      | Some r'', Some c'' => Some (S2 r'' c'')
      | _, _ => None
      end
  end.

(** A tensor of a given shape whose elements come from [f] (row major). *)
Definition fill (sh : shape) (f : nat → num) : tensor :=
  match sh with
  | S0 => T0 (f 0)
  | S1 n => T1 (f <$> seq 0 n)
  | S2 r c => T2 ((λ i, (λ j, f (i * c + j)) <$> seq 0 c) <$> seq 0 r)
  end.

(** [torch.ones(n)] and [x * torch.ones(n)]. *)
Definition ones (n : nat) : tensor := T1 (replicate n fone).

Definition scale (x : num) (t : tensor) : tensor :=
  match t with
  | T0 y => T0 (fmul x y)
  | T1 v => T1 (fmul x <$> (v : list num))
  | T2 rows => T2 ((λ r : list num, fmul x <$> r) <$> (rows : list (list num)))
  end.

(** [t[:, j]]: needs two dimensions; column [j] of every row. *)
Definition index_col (t : tensor) (j : nat) : result (list num) :=
  match t with
  | T0 _ | T1 _ => Raises IndexError      (* too many indices *)
  | T2 rows =>
      match mapM (λ r : list num, r !! j) rows with
      | Some col => Returns col
      | None => Raises IndexError         (* index out of range *)
      end
  end.

(** An integer tensor used as an index. *)
Definition as_index (t : tensor) : result nat :=
  match t with
  | T0 x => Returns (to_index x)
  | _ => Raises TypeError
  end.

(** [a @ b] on two one-dimensional tensors. *)
Definition dot (a b : list num) : result num :=
  if decide (length a = length b)
  then Returns (foldr fadd fzero (zip_with fmul a b))
  else Raises RuntimeError.

(** ** Distributions *)

Inductive dist :=
| Gamma (concentration rate : tensor)
| Dirichlet (concentration : tensor)
| Categorical (probs : tensor)
| Poisson (rate : tensor)
| Subsample (size : nat).          (* the index site of a plate *)

(** Shape of one draw; [None] where torch refuses the parameters. *)
Definition draw_shape (d : dist) : option shape :=
  match d with
  | Gamma a b => broadcast (shape_of a) (shape_of b)
  | Dirichlet c => match shape_of c with S0 => None | sh => Some sh end
  | Categorical p =>
      match shape_of p with
      | S0 => None
      | S1 _ => Some S0
      | S2 r _ => Some (S1 r)
      end
  | Poisson l => Some (shape_of l)
  | Subsample n => Some (S1 n)
  end.


(** ** Traces and the interpreter state *)

Record site := Site {
  site_name : name;
  site_fn : dist;
  site_value : tensor;
  site_observed : bool
}.

Record state := State {
  store : gmap name tensor;           (* Pyro's global parameter store *)
  trace : list site;                  (* sites recorded by this run *)
  replayed : list site;               (* guide trace replayed into a model run *)
  plates : list nat;                  (* enclosing vectorized plates, innermost first *)
  ratings_itr : option (list (rating num)); (* the local [ratings_itr], once created *)
  run_id : nat                        (* selects the randomness of this run *)
}.

Inductive outcome (A : Type) :=
| Ok (v : A) (s : state)
| Raise (e : exn) (s : state).
Arguments Ok {A} v s.
Arguments Raise {A} e s.

Definition M (A : Type) : Type := state → outcome A.

Definition ret {A} (v : A) : M A := λ s, Ok v s.
Definition raise {A} (e : exn) : M A := λ s, Raise e s.
Definition bind {A B} (m : M A) (k : A → M B) : M B :=
  λ s, match m s with
       | Ok v s' => k v s'
       | Raise e s' => Raise e s'
       end.

Definition lift {A} (r : result A) : M A :=
  match r with
  | Returns v => ret v
  | Raises e => raise e
  end.

Definition final {A} (o : outcome A) : state :=
  match o with Ok _ s | Raise _ s => s end.

End Runtime.

Arguments tensor num : clear implicits.
Arguments dist num : clear implicits.
Arguments site num : clear implicits.
Arguments state num : clear implicits.
Arguments outcome num A : clear implicits.
Arguments M num A : clear implicits.
Arguments Ok {num A} v s.
Arguments Raise {num A} e s.

#[global] Instance M_ret {num} : MRet (M num) := @ret num.
#[global] Instance M_bind {num} : MBind (M num) := λ A B k m, bind m k.

(** ** Pyro primitives *)

Section Primitives.
Context {num : Type} `{Numeric num}.

(** The source of randomness: run, site, position in the drawn tensor. *)
Variable rnd : nat → name → nat → num.

Definition names (t : list (site num)) : list name := site_name <$> t.

(** [Trace.add_node]: a second sample site of the same name is refused
    ("Multiple sample sites named ..."). *)
Definition add_node (st : site num) : M num () :=
  λ s, if decide (site_name st ∈ names (trace s))
       then Raise RuntimeError s
       else Ok () (State (store s) (trace s ++ [st]) (replayed s) (plates s)
                         (ratings_itr s) (run_id s)).

(** The value a replayed guide trace holds for an unobserved site. *)
Definition replay_value (n : name) (tr : list (site num)) : option (tensor num) :=
  site_value <$> head (filter (λ st, site_name st = n ∧ site_observed st = false) tr).

(** Vectorized plates widen a draw to their sizes: the outermost plate is
    the last dimension. *)
Definition plate_shape (ps : list nat) : option shape :=
  match ps with
  | [] => Some S0
  | [n] => Some (S1 n)
  | [inner; outer] => Some (S2 inner outer)
  | _ => None
  end.

Definition sample_shape (d : dist num) (ps : list nat) : option shape :=
  sh ← draw_shape d; p ← plate_shape ps; broadcast sh p.

(** [pyro.sample(name, fn)]: the replayed value when there is one, else a
    fresh draw; the site is recorded in the trace. *)
Definition pyro_sample (n : name) (d : dist num) : M num (tensor num) :=
  λ s, match replay_value n (replayed s) with
       | Some v => (add_node (Site n d v false);; mret v) s
       | None =>
           match sample_shape d (plates s) with
           | None => Raise ValueError s
           | Some sh =>
               let v := fill sh (rnd (run_id s) n) in
               (add_node (Site n d v false);; mret v) s
           end
       end.

(** [pyro.sample(name, fn, obs=value)]. *)
Definition pyro_observe (n : name) (d : dist num) (obs : tensor num) : M num () :=
  add_node (Site n d obs true).

(** [pyro.param(name, init, constraint=positive)]: create or fetch. *)
Definition pyro_param (n : name) (init : tensor num) : M num (tensor num) :=
  λ s, match store s !! n with
       | Some v => Ok v s
       | None => Ok init (State (<[n := init]> (store s)) (trace s) (replayed s)
                                (plates s) (ratings_itr s) (run_id s))
       end.

(** [pyro.plate(name, size)]: the constructor draws the plate's indices
    at a sample site called like the plate ([_subsample]), so plates and
    sample statements share one name space; then [IndepMessenger] refuses
    an empty plate ("size cannot be zero"). *)
Definition arange (size : nat) : tensor num := T1 (of_nat <$> seq 0 size).

Definition pyro_plate (n : name) (size : nat) : M num () :=
  (λ s, add_node (Site n (Subsample size)
                   (default (arange size) (replay_value n (replayed s))) false) s);;
  if decide (size = 0) then raise ZeroDivisionError else mret ().

Definition push_plate (size : nat) : M num () :=
  λ s, Ok () (State (store s) (trace s) (replayed s) (size :: plates s)
                    (ratings_itr s) (run_id s)).

Definition pop_plate : M num () :=
  λ s, Ok () (State (store s) (trace s) (replayed s) (tail (plates s))
                    (ratings_itr s) (run_id s)).

(** [with pyro.plate(name, size): body]: the body runs once, vectorized. *)
Definition with_plate {A} (n : name) (size : nat) (body : M num A) : M num A :=
  pyro_plate n size;;
  push_plate size;;
  v ← body;
  pop_plate;;
  mret v.

(** A [for] loop over [range(n)]; [acc] carries the locals the body assigns. *)
Fixpoint for_range {A} (start n : nat) (body : nat → A → M num A) (acc : A) : M num A :=
  match n with
  | 0 => mret acc
  | S n' => acc' ← body start acc; for_range (S start) n' body acc'
  end.

(** [for x in pyro.plate(name, size): body]. *)
Definition for_plate {A} (n : name) (size : nat) (body : nat → A → M num A) (acc : A)
  : M num A :=
  pyro_plate n size;;
  for_range 0 size body acc.

(** ** Python locals and iterators *)

(** A local that is assigned somewhere in the function: [None] until the
    first assignment; reading it before that raises. *)
Definition read_local {A} (x : option A) : M num A :=
  match x with
  | Some v => mret v
  | None => raise UnboundLocalError
  end.

(** [ratings_itr = iter(ratings)]. *)
Definition iter_ratings (ratings : list (rating num)) : M num () :=
  λ s, Ok () (State (store s) (trace s) (replayed s) (plates s) (Some ratings) (run_id s)).

(** [next(ratings_itr)]. *)
Definition next_rating : M num (rating num) :=
  λ s, match ratings_itr s with
       | Some (r :: rest) =>
           Ok r (State (store s) (trace s) (replayed s) (plates s) (Some rest) (run_id s))
       | Some [] => Raise StopIteration s
       | None => Raise UnboundLocalError s
       end.

(** How many entries of [ratings] a run has taken from its iterator. *)
Definition consumed (ratings : list (rating num)) (s : state num) : nat :=
  match ratings_itr s with
  | Some rest => length ratings - length rest
  | None => 0
  end.

End Primitives.

(** ** Hyperparameters

    The [hyperparams] dictionary of a valid configuration: every key is
    present, the Gamma constants are scalar tensors. *)

Record hyper (num : Type) := Hyper {
  a_u : num; b_u : num;
  a_i : num; b_i : num;
  a_c : num; b_c : num;
  c_u : num; c_i : num;
  context_conc : num;
  num_users : nat;
  num_items : nat;
  num_nonmissing : nat;
  num_latents : nat;
  num_contexts : nat;
  num_context_latents : nat
}.
Arguments Hyper {num}.
Arguments a_u {num}. Arguments b_u {num}.
Arguments a_i {num}. Arguments b_i {num}.
Arguments a_c {num}. Arguments b_c {num}.
Arguments c_u {num}. Arguments c_i {num}.
Arguments context_conc {num}.
Arguments num_users {num}. Arguments num_items {num}.
Arguments num_nonmissing {num}. Arguments num_latents {num}.
Arguments num_contexts {num}. Arguments num_context_latents {num}.

(** [hyperparams[key]]: [None] is not subscriptable. *)
Definition subscriptable {num} (hyperparams : option (hyper num)) : M num (hyper num) :=
  match hyperparams with
  | Some hp => mret hp
  | None => raise TypeError
  end.

(** ** Stochastic variational inference *)

(** A model or guide as SVI calls it: [fn(ratings, *extra)]. *)
Abbreviation callable num :=
  (list (rating num) → list (option (hyper num)) → M num ()).

Section SVI.
Context {num : Type} `{Numeric num}.

(** Pyro's ELBO estimate, its gradients and the optimizer update, from a
    model trace, the guide trace it was replayed against and the store:
    the new store and the loss, or the exception the estimator raises. *)
Variable loss_and_grads :
  nat → list (site num) → list (site num) → gmap name (tensor num) →
  result (num * gmap name (tensor num)).

(** Pyro collects traces inside a generator; a [StopIteration] that leaves
    a generator is turned into a [RuntimeError] (Python 3.7 and later). *)
Definition through_generator (e : exn) : exn :=
  if decide (e = StopIteration) then RuntimeError else e.

Definition fresh_run (k : nat) (w : gmap name (tensor num)) (replay : list (site num))
  : state num :=
  State w [] replay [] None k.

(** [svi.step(ratings, *extra)], step number [k]: the guide is traced on
    the arguments of the step, the model is run on the same arguments
    replaying the guide's values, then the loss is taken from the two
    traces.  An exception of guide or model ends the step; what the guide
    has put into the parameter store stays there. *)
Definition svi_step (model guide : callable num) (k : nat)
    (ratings : list (rating num)) (extra : list (option (hyper num)))
    (w : gmap name (tensor num)) : gmap name (tensor num) * result num :=
  match guide ratings extra (fresh_run k w []) with
  | Raise e s => (store s, Raises (through_generator e))
  | Ok _ s =>
      match model ratings extra (fresh_run k (store s) (trace s)) with
      | Raise e s' => (store s', Raises (through_generator e))
      | Ok _ s' =>
          match loss_and_grads k (trace s') (trace s) (store s') with
          | Raises e => (store s', Raises e)
          | Returns (loss, w') => (w', Returns loss)
          end
      end
  end.

(** The loop of [fit]:
    [for s in range(num_steps): loss = svi.step(...); losses.append(loss)].
    It ends with the store, the local [losses] and the exception in
    flight, if any. *)
Fixpoint train_loop (step : nat → gmap name (tensor num) → gmap name (tensor num) * result num)
    (s num_steps : nat) (w : gmap name (tensor num)) (losses : list num)
  : gmap name (tensor num) * list num * option exn :=
  match num_steps with
  | 0 => (w, losses, None)
  | S n =>
      match step s w with
      | (w', Returns loss) => train_loop step (S s) n w' (losses ++ [loss])
      | (w', Raises e) => (w', losses, Some e)
      end
  end.

(** Leaving [fit]: [return losses], or the exception propagates and the
    frame with its [losses] is gone. *)
Definition leave_fit (frame : gmap name (tensor num) * list num * option exn)
  : gmap name (tensor num) * result (list num) :=
  match frame with
  | (w, losses, None) => (w, Returns losses)
  | (w, _, Some e) => (w, Raises e)
  end.

End SVI.

(** ** class BPF *)

Module BPF.
Section Defs.
Context {num : Type} `{Numeric num}.
Variable rnd : nat → name → nat → num.
Variable loss_and_grads :
  nat → list (site num) → list (site num) → gmap name (tensor num) →
  result (num * gmap name (tensor num)).

Record obj := New { hyperparams : option (hyper num) }.

(** [_model(self, ratings)].  [hyperparams] is assigned in the body, so it
    is a local of [_model], and nothing binds it before line 21 reads it. *)
Definition _model (self : obj) : callable num := λ ratings extra,
  match extra with
  | _ :: _ => raise TypeError
  | [] =>
      let hyperparams0 : option (option (hyper num)) := None in
      h ← read_local hyperparams0;
      let hyperparams1 := match h with None => hyperparams self | Some _ => h end in
      hp ← subscriptable hyperparams1;
      let user_mean_dist := Gamma (T0 (a_u hp)) (T0 (b_u hp)) in
      let item_mean_dist := Gamma (T0 (a_i hp)) (T0 (b_i hp)) in
      user_latents ← with_plate ("users_loop", []) (num_users hp) (
        user_mean ← pyro_sample rnd ("user_mean", []) user_mean_dist;
        let user_latents_dist := Gamma (T0 (c_u hp)) user_mean in
        with_plate ("user_latents", []) (num_latents hp) (
          pyro_sample rnd ("user_latents", []) user_latents_dist));
      item_latents ← with_plate ("items_loop", []) (num_items hp) (
        item_mean ← pyro_sample rnd ("item_mean", []) item_mean_dist;
        let item_latents_dist := Gamma (T0 (c_u hp)) item_mean in
        with_plate ("item_latents", []) (num_latents hp) (
          pyro_sample rnd ("item_latents", []) item_latents_dist));
      iter_ratings ratings;;
      with_plate ("ratings", []) (num_nonmissing hp) (
        '(user, item, rating) ← next_rating;
        ul ← lift (index_col user_latents user);
        il ← lift (index_col item_latents item);
        lam ← lift (dot ul il);
        pyro_observe ("obs_rating", []) (Poisson (T0 lam)) (T0 rating))
  end.

(** [_guide(self, ratings, hyperparams=None)]. *)
Definition _guide (self : obj) : callable num := λ ratings extra,
  match extra with
  | _ :: _ :: _ => raise TypeError
  | [] | [_] =>
      let hyperparams0 := default None (head extra) in
      let hyperparams1 :=
        match hyperparams0 with None => hyperparams self | Some _ => hyperparams0 end in
      hp ← subscriptable hyperparams1;
      for_plate ("users_loop", []) (num_users hp) (λ u _,
        q_au ← pyro_param ("q_au_{}", [u]) (T0 (a_u hp));
        q_bu ← pyro_param ("q_bu_{}", [u]) (T0 (b_u hp));
        let user_mean_dist := Gamma q_au q_bu in
        user_mean ← pyro_sample rnd ("user_mean", []) user_mean_dist;
        for_plate ("user_latents", []) (num_latents hp) (λ l _,
          q_lu1 ← pyro_param ("q_lu1_{},{}", [u; l]) (T0 (c_u hp));
          q_lu2 ← pyro_param ("q_lu2_{},{}", [u; l]) (T0 fone);
          let user_latents_dist := Gamma q_lu1 q_lu2 in
          user_latents ← pyro_sample rnd ("user_latents", []) user_latents_dist;
          mret ()) ()) ();;
      for_plate ("items_loop", []) (num_items hp) (λ i _,
        q_ai ← pyro_param ("q_ai_{}", [i]) (T0 (a_i hp));
        q_bi ← pyro_param ("q_bi_{}", [i]) (T0 (b_i hp));
        let item_mean_dist := Gamma q_ai q_bi in
        item_mean ← pyro_sample rnd ("item_mean", []) item_mean_dist;
        for_plate ("item_latents", []) (num_latents hp) (λ l _,
          q_li1 ← pyro_param ("q_li1_{},{}", [i; l]) (T0 (c_i hp));
          q_li2 ← pyro_param ("q_li2_{},{}", [i; l]) (T0 fone);
          let item_latents_dist := Gamma q_li1 q_li2 in
          item_latents ← pyro_sample rnd ("item_latents", []) item_latents_dist;
          mret ()) ()) ()
  end.

(** Lines 86-92 of [fit]: the new [self.hyperparams] and the local
    [hyperparams] handed to every step. *)
Definition fit_hyperparams (self : obj) (hyperparams0 : option (hyper num))
  : result (obj * option (hyper num)) :=
  match hyperparams0 with
  | None =>
      match hyperparams self with
      | None => Raises ValueError
      | Some _ => Returns (New hyperparams0, hyperparams0)
      end
  | Some _ => Returns (self, hyperparams self)
  end.

(** Lines 94-101 of [fit], on the object and local left by lines 86-92. *)
Definition fit_train (self : obj) (ratings : list (rating num))
    (hyperparams1 : option (hyper num)) (num_steps : nat) (w : gmap name (tensor num))
  : gmap name (tensor num) * list num * option exn :=
  train_loop
    (λ s, svi_step loss_and_grads (_model self) (_guide self) s ratings [hyperparams1])
    0 num_steps w [].

(** [fit(self, ratings, hyperparams=None, num_steps=2000)]. *)
Definition fit (self : obj) (ratings : list (rating num))
    (hyperparams0 : option (hyper num)) (num_steps : nat) (w : gmap name (tensor num))
  : obj * (gmap name (tensor num) * result (list num)) :=
  match fit_hyperparams self hyperparams0 with
  | Raises e => (self, (w, Raises e))
  | Returns (self', hyperparams1) =>
      (self', leave_fit (fit_train self' ratings hyperparams1 num_steps w))
  end.

End Defs.
End BPF.

(** ** class MMPF *)

Module MMPF.
Section Defs.
Context {num : Type} `{Numeric num}.
Variable rnd : nat → name → nat → num.
Variable loss_and_grads :
  nat → list (site num) → list (site num) → gmap name (tensor num) →
  result (num * gmap name (tensor num)).

Record obj := New { hyperparams : option (hyper num) }.

(** The prior of both context-probability sites in the model (line 114). *)
Definition context_prob_dist (hp : hyper num) : dist num :=
  Dirichlet (scale (context_conc hp) (ones (num_contexts hp))).

(** The initial value of both concentration parameters of the guide
    (lines 151 and 153). *)
Definition q_context_conc_init (hp : hyper num) : tensor num :=
  ones (num_context_latents hp).

(** Line 146-147: the rate of one rating, from the locals as the loops
    left them. *)
Definition rate (user_latents item_latents user_context_latents item_context_latents
                   : option (tensor num))
    (user item : nat) (z_u z_i : tensor num) : M num num :=
  ul ← read_local user_latents;
  uf ← lift (index_col ul user);
  il ← read_local item_latents;
  itf ← lift (index_col il item);
  factors ← lift (dot uf itf);
  ucl ← read_local user_context_latents;
  zu ← lift (as_index z_u);
  uc ← lift (index_col ucl zu);
  icl ← read_local item_context_latents;
  zi ← lift (as_index z_i);
  ic ← lift (index_col icl zi);
  contexts ← lift (dot uc ic);
  mret (fadd factors contexts).

(** [_model(self, ratings)].  The locals assigned inside the loops
    ([user_context_latents], [item_context_latents], [user_latents],
    [item_latents]) hold what the last iteration bound, or nothing. *)
Definition _model (self : obj) : callable num := λ ratings extra,
  match extra with
  | _ :: _ => raise TypeError
  | [] =>
      hp ← subscriptable (hyperparams self);
      let user_mean_dist := Gamma (T0 (a_u hp)) (T0 (b_u hp)) in
      let item_mean_dist := Gamma (T0 (a_i hp)) (T0 (b_i hp)) in
      let context_dist := Gamma (T0 (a_c hp)) (T0 (b_c hp)) in
      user_context_prob ← pyro_sample rnd ("user_context_prob", []) (context_prob_dist hp);
      item_context_prob ← pyro_sample rnd ("item_context_prob", []) (context_prob_dist hp);
      user_context_latents ←
        for_plate ("user_contexts", []) (num_contexts hp) (λ c acc,
          for_plate ("user_context_latents_{}", [c]) (num_context_latents hp) (λ v _,
            x ← pyro_sample rnd ("user_context_latents_{},{}", [c; v])
                  (Gamma (T0 (a_c hp)) (T0 (b_c hp)));
            mret (Some x)) acc) None;
      item_context_latents ←
        for_plate ("item_contexts", []) (num_contexts hp) (λ c acc,
          for_plate ("item_context_latents_{}", [c]) (num_context_latents hp) (λ v _,
            x ← pyro_sample rnd ("item_context_latents_{},{}", [c; v])
                  (Gamma (T0 (a_c hp)) (T0 (b_c hp)));
            mret (Some x)) acc) None;
      user_latents ←
        for_plate ("users_loop", []) (num_users hp) (λ u acc,
          user_mean ← pyro_sample rnd ("user_mean_{}", [u]) user_mean_dist;
          let user_latents_dist := Gamma (T0 (c_u hp)) user_mean in
          for_plate ("user_latents_loop_{}", [u]) (num_latents hp) (λ k _,
            x ← pyro_sample rnd ("user_latents_{},{}", [u; k]) user_latents_dist;
            mret (Some x)) acc) None;
      item_latents ←
        for_plate ("items_loop", []) (num_items hp) (λ i acc,
          item_mean ← pyro_sample rnd ("item_mean_{}", [i]) item_mean_dist;
          let item_latents_dist := Gamma (T0 (c_i hp)) item_mean in
          for_plate ("item_latents_loop_{}", [i]) (num_latents hp) (λ k _,
            x ← pyro_sample rnd ("item_latents_{},{}", [i; k]) item_latents_dist;
            mret (Some x)) acc) None;
      iter_ratings ratings;;
      for_plate ("ratings", []) (num_nonmissing hp) (λ j _,
        '(user, item, rating) ← next_rating;
        z_u ← pyro_sample rnd ("user_context_{},{}", [user; item])
                (Categorical user_context_prob);
        z_i ← pyro_sample rnd ("item_context_{},{}", [user; item])
                (Categorical item_context_prob);
        lam ← rate user_latents item_latents user_context_latents item_context_latents
                user item z_u z_i;
        pyro_observe ("obs_rating_{},{}", [user; item]) (Poisson (T0 lam)) (T0 rating)) ()
  end.

(** [_guide(self, ratings, hyperparams=None)]; the keyword is never read. *)
Definition _guide (self : obj) : callable num := λ ratings extra,
  match extra with
  | _ :: _ :: _ => raise TypeError
  | [] | [_] =>
      hp ← subscriptable (hyperparams self);
      q_user_context_conc ← pyro_param ("q_user_context_conc", []) (q_context_conc_init hp);
      q_item_context_conc ← pyro_param ("q_item_context_conc", []) (q_context_conc_init hp);
      user_context_prob ←
        pyro_sample rnd ("user_context_prob", []) (Dirichlet q_user_context_conc);
      item_context_prob ←
        pyro_sample rnd ("item_context_prob", []) (Dirichlet q_item_context_conc);
      for_plate ("user_contexts_loop", []) (num_contexts hp) (λ c _,
        for_plate ("user_context_latents_loop_{}", [c]) (num_context_latents hp) (λ v _,
          q_aucv ← pyro_param ("q_aucv_{},{}", [c; v]) (T0 (a_c hp));
          q_bucv ← pyro_param ("q_bucv_{},{}", [c; v]) (T0 (b_c hp));
          user_context_latents ←
            pyro_sample rnd ("user_context_latents_{},{}", [c; v]) (Gamma q_aucv q_bucv);
          mret ()) ()) ();;
      for_plate ("item_contexts_loop", []) (num_contexts hp) (λ c _,
        for_plate ("item_context_latents_loop_{}", [c]) (num_context_latents hp) (λ v _,
          q_aicv ← pyro_param ("q_aicv_{},{}", [c; v]) (T0 (a_c hp));
          q_bicv ← pyro_param ("q_bicv_{},{}", [c; v]) (T0 (b_c hp));
          item_context_latents ←
            pyro_sample rnd ("item_context_latents_{},{}", [c; v]) (Gamma q_aicv q_bicv);
          mret ()) ()) ();;
      for_plate ("users_loop", []) (num_users hp) (λ u _,
        q_au ← pyro_param ("q_au_{}", [u]) (T0 (a_u hp));
        q_bu ← pyro_param ("q_bu_{}", [u]) (T0 (b_u hp));
        let user_mean_dist := Gamma q_au q_bu in
        user_mean ← pyro_sample rnd ("user_mean_{}", [u]) user_mean_dist;
        for_plate ("user_latents_loop_{}", [u]) (num_latents hp) (λ l _,
          q_lu1 ← pyro_param ("q_lu1_{},{}", [u; l]) (T0 (c_u hp));
          q_lu2 ← pyro_param ("q_lu2_{},{}", [u; l]) (T0 fone);
          let user_latents_dist := Gamma q_lu1 q_lu2 in
          user_latents ← pyro_sample rnd ("user_latents_{},{}", [u; l]) user_latents_dist;
          mret ()) ()) ();;
      for_plate ("items_loop", []) (num_items hp) (λ i _,
        q_ai ← pyro_param ("q_ai_{}", [i]) (T0 (a_i hp));
        q_bi ← pyro_param ("q_bi_{}", [i]) (T0 (b_i hp));
        let item_mean_dist := Gamma q_ai q_bi in
        item_mean ← pyro_sample rnd ("item_mean_{}", [i]) item_mean_dist;
        for_plate ("item_latents_loop_{}", [i]) (num_latents hp) (λ l _,
          q_li1 ← pyro_param ("q_li1_{},{}", [i; l]) (T0 (c_u hp));
          q_li2 ← pyro_param ("q_li2_{},{}", [i; l]) (T0 fone);
          let item_latents_dist := Gamma q_li1 q_li2 in
          item_latents ← pyro_sample rnd ("item_latents_{},{}", [i; l]) item_latents_dist;
          mret ()) ()) ();;
      iter_ratings ratings;;
      for_plate ("ratings", []) (num_nonmissing hp) (λ _ _,
        '(u, i, r) ← next_rating;
        q_zu ← pyro_param ("q_zu_{},{}", [u; i]) (ones (num_contexts hp));
        q_zi ← pyro_param ("q_zi_{},{}", [u; i]) (ones (num_contexts hp));
        z_u ← pyro_sample rnd ("user_context_{},{}", [u; i]) (Categorical q_zu);
        z_i ← pyro_sample rnd ("item_context_{},{}", [u; i]) (Categorical q_zi);
        mret ()) ()
  end.

(** [fit(self, ratings, num_steps=2000)], up to the end of the loop. *)
Definition fit_train (self : obj) (ratings : list (rating num)) (num_steps : nat)
    (w : gmap name (tensor num)) : gmap name (tensor num) * list num * option exn :=
  train_loop
    (λ s, svi_step loss_and_grads (_model self) (_guide self) s ratings [])
    0 num_steps w [].

Definition fit (self : obj) (ratings : list (rating num)) (num_steps : nat)
    (w : gmap name (tensor num)) : gmap name (tensor num) * result (list num) :=
  leave_fit (fit_train self ratings num_steps w).

End Defs.
End MMPF.

(** ** The script at the end of the file (lines 231-250)

    The script builds hyperparameters, synthetic ratings and an [MMPF]
    object; it creates an optimizer and an [SVI] object and stops there,
    with [losses = []]: no training step is run. *)

Section Comprehension.
Context {num : Type} `{Numeric num}.

(** [t[u, i]] on a matrix. *)
Definition index2 (t : tensor num) (u i : nat) : result num :=
  match t with
  | T2 rows =>
      match rows !! u ≫= (.!! i) with
      | Some x => Returns x
      | None => Raises IndexError
      end
  | _ => Raises IndexError
  end.

(** [[(u, i, raw_ratings[u, i]) for u, i in l]]. *)
Fixpoint comprehension (raw_ratings : tensor num) (l : list (nat * nat))
  : result (list (rating num)) :=
  match l with
  | [] => Returns []
  | (u, i) :: l' =>
      match index2 raw_ratings u i with
      | Raises e => Raises e
      | Returns x =>
          match comprehension raw_ratings l' with
          | Raises e => Raises e
          | Returns rs => Returns ((u, i, x) :: rs)
          end
      end
  end.

End Comprehension.

Module Script.
Section Defs.
Context {num : Type} `{Numeric num}.

(** Lines 231-239: every Gamma constant is [torch.tensor(1.)]. *)
Definition hyperparams : hyper num :=
  {| a_u := fone; b_u := fone; a_i := fone; b_i := fone; a_c := fone; b_c := fone;
     c_u := fone; c_i := fone; context_conc := of_nat 5;
     num_users := 10; num_items := 20; num_nonmissing := 40;
     num_latents := 4; num_contexts := 3; num_context_latents := 4 |}.

(** Line 240: [[(u, i) for u in range(10) for i in range(20)]]. *)
Definition idx : list (nat * nat) := u ← seq 0 10; i ← seq 0 20; [(u, i)].

(** Line 244: a sample of shape (10, 20), whose elements are [draw 0],
    [draw 1], ... in row-major order. *)
Definition raw_ratings (draw : nat → num) : tensor num := fill (S2 10 20) draw.

(** Line 245, on [idx] as [random.shuffle] (line 243) has left it. *)
Definition ratings (shuffled : list (nat * nat)) (draw : nat → num)
  : result (list (rating num)) :=
  comprehension (raw_ratings draw) (take 40 shuffled).

(** Line 247. *)
Definition mmpf : MMPF.obj := MMPF.New (Some hyperparams).

End Defs.
End Script.

(** ** A concrete instance: integer elements and the scenario of the
    specification (2 users, 2 items, 1 latent, 1 context, 2 ratings) *)

#[global] Instance Z_numeric : Numeric Z := {|
  fzero := 0%Z;
  fone := 1%Z;
  fadd := Z.add;
  fmul := Z.mul;
  of_nat := Z.of_nat;
  to_index := Z.to_nat
|}.

Definition scenario_rnd : nat → name → nat → Z := λ _ _ _, 1%Z.

Definition scenario_loss : nat → list (site Z) → list (site Z) → gmap name (tensor Z) →
    result (Z * gmap name (tensor Z)) :=
  λ _ _ _ w, Returns (0%Z, w).

(** Gamma priors with shape = rate = 1, except [c_i] = 2 so that the two
    latent shape constants can be told apart. *)
Definition scenario_hp : hyper Z :=
  {| a_u := 1; b_u := 1; a_i := 1; b_i := 1; a_c := 1; b_c := 1;
     c_u := 1; c_i := 2; context_conc := 5;
     num_users := 2; num_items := 2; num_nonmissing := 2;
     num_latents := 1; num_contexts := 1; num_context_latents := 1 |}%Z.

Definition scenario_ratings : list (rating Z) := [(0, 0, 1%Z); (1, 1, 2%Z)].


(** A step that returns a loss once and raises from then on. *)
Definition failing_step (k : nat) (w : gmap name (tensor Z))
  : gmap name (tensor Z) * result Z :=
  if decide (k = 0) then (w, Returns 7%Z) else (w, Raises ValueError).

(** The first guide run of a step on the scenario, and the model run that
    replays it. *)
Definition scenario_guide (rnd : nat → name → nat → Z) : outcome Z () :=
  MMPF._guide rnd (MMPF.New (Some scenario_hp)) scenario_ratings [] (fresh_run 0 ∅ []).

Definition scenario_model (rnd : nat → name → nat → Z) : outcome Z () :=
  MMPF._model rnd (MMPF.New (Some scenario_hp)) scenario_ratings []
    (fresh_run 0 (store (final (scenario_guide rnd))) (trace (final (scenario_guide rnd)))).

Definition raised {num A} (o : outcome num A) : option exn :=
  match o with Ok _ _ => None | Raise e _ => Some e end.

(** ** Vocabulary of the proofs *)

Section Logic.
Context {num : Type}.

(** Partial-correctness triples with a postcondition per way of leaving. *)
Definition hoare {A} (P : state num → Prop) (m : M num A)
    (Q : A → state num → Prop) (E : exn → state num → Prop) : Prop :=
  ∀ s, P s → match m s with Ok v s' => Q v s' | Raise e s' => E e s' end.

(** A run only appends to its trace and only adds to the store. *)
Definition extends (s s' : state num) : Prop :=
  trace s `prefix_of` trace s' ∧ store s ⊆ store s'.

Definition monotone {A} (m : M num A) : Prop := ∀ s, extends s (final (m s)).

(** The distribution recorded at the first site of a given name. *)
Definition dist_at (n : name) (tr : list (site num)) : option (dist num) :=
  site_fn <$> head (filter (λ st, site_name st = n) tr).

(** [steps_run step s w l w']: steps [s], [s+1], ... returned the losses
    [l] one after the other, taking the store from [w] to [w']. *)
Inductive steps_run (step : nat → gmap name (tensor num) → gmap name (tensor num) * result num)
  : nat → gmap name (tensor num) → list num → gmap name (tensor num) → Prop :=
| steps_nil s w : steps_run step s w [] w
| steps_cons s w w' loss l w'' :
    step s w = (w', Returns loss) →
    steps_run step (S s) w' l w'' →
    steps_run step s w (loss :: l) w''.

(** The losses a call of [fit] hands to its caller. *)
Definition returned_losses {W} (r : W * result (list num)) : option (list num) :=
  match r.2 with
  | Returns l => Some l
  | Raises _ => None
  end.

End Logic.

(** Position of a site in the order in which model and guide visit the
    sites that do not depend on the ratings. *)
Definition pos (n : name) : nat * nat * nat :=
  let p := n.1 in
  let i := default 0 (n.2 !! 0) in
  let j := default 0 (n.2 !! 1) in
  if String.eqb p "user_context_prob" then (0, 0, 0)
  else if String.eqb p "item_context_prob" then (0, 1, 0)
  else if String.eqb p "user_contexts_loop" then (1, 0, 0)
  else if String.eqb p "user_contexts" then (1, 0, 0)
  else if String.eqb p "user_context_latents_loop_{}" then (1, S i, 0)
  else if String.eqb p "user_context_latents_{}" then (1, S i, 0)
  else if String.eqb p "user_context_latents_{},{}" then (1, S i, S j)
  else if String.eqb p "item_contexts_loop" then (2, 0, 0)
  else if String.eqb p "item_contexts" then (2, 0, 0)
  else if String.eqb p "item_context_latents_loop_{}" then (2, S i, 0)
  else if String.eqb p "item_context_latents_{}" then (2, S i, 0)
  else if String.eqb p "item_context_latents_{},{}" then (2, S i, S j)
  else if String.eqb p "users_loop" then (3, 0, 0)
  else if String.eqb p "user_mean_{}" then (3, S i, 0)
  else if String.eqb p "user_latents_loop_{}" then (3, S i, 1)
  else if String.eqb p "user_latents_{},{}" then (3, S i, S (S j))
  else if String.eqb p "items_loop" then (4, 0, 0)
  else if String.eqb p "item_mean_{}" then (4, S i, 0)
  else if String.eqb p "item_latents_loop_{}" then (4, S i, 1)
  else if String.eqb p "item_latents_{},{}" then (4, S i, S (S j))
  else if String.eqb p "ratings" then (5, 0, 0)
  else (6, 0, 0).

Definition lt3 (a b : nat * nat * nat) : Prop :=
  a.1.1 < b.1.1 ∨ (a.1.1 = b.1.1 ∧ (a.1.2 < b.1.2 ∨ (a.1.2 = b.1.2 ∧ a.2 < b.2))).

Definition le3 (a b : nat * nat * nat) : Prop :=
  a.1.1 < b.1.1 ∨ (a.1.1 = b.1.1 ∧ (a.1.2 < b.1.2 ∨ (a.1.2 = b.1.2 ∧ a.2 ≤ b.2))).

Section GuideVocabulary.
Context {num : Type} `{Numeric num}.
Variable hp : hyper num.

(** The value with which the MMPF guide creates each of its parameters. *)
Definition init_of (n : name) : option (tensor num) :=
  let p := n.1 in
  if String.eqb p "q_user_context_conc" then Some (ones (num_context_latents hp))
  else if String.eqb p "q_item_context_conc" then Some (ones (num_context_latents hp))
  else if String.eqb p "q_aucv_{},{}" then Some (T0 (a_c hp))
  else if String.eqb p "q_bucv_{},{}" then Some (T0 (b_c hp))
  else if String.eqb p "q_aicv_{},{}" then Some (T0 (a_c hp))
  else if String.eqb p "q_bicv_{},{}" then Some (T0 (b_c hp))
  else if String.eqb p "q_au_{}" then Some (T0 (a_u hp))
  else if String.eqb p "q_bu_{}" then Some (T0 (b_u hp))
  else if String.eqb p "q_lu1_{},{}" then Some (T0 (c_u hp))
  else if String.eqb p "q_lu2_{},{}" then Some (T0 fone)
  else if String.eqb p "q_ai_{}" then Some (T0 (a_i hp))
  else if String.eqb p "q_bi_{}" then Some (T0 (b_i hp))
  else if String.eqb p "q_li1_{},{}" then Some (T0 (c_u hp))
  else if String.eqb p "q_li2_{},{}" then Some (T0 fone)
  else if String.eqb p "q_zu_{},{}" then Some (ones (num_contexts hp))
  else if String.eqb p "q_zi_{},{}" then Some (ones (num_contexts hp))
  else None.

(** A store that holds nothing but parameters of the MMPF guide, at the
    values the guide creates them with (the empty store, for one). *)
Definition pristine (w : gmap name (tensor num)) : Prop :=
  ∀ n v, w !! n = Some v → init_of n = Some v.

(** A configuration whose plates are all non-empty. *)
Record valid : Prop := Valid {
  v_users : num_users hp ≠ 0;
  v_items : num_items hp ≠ 0;
  v_latents : num_latents hp ≠ 0;
  v_contexts : num_contexts hp ≠ 0;
  v_context_latents : num_context_latents hp ≠ 0;
  v_nonmissing : num_nonmissing hp ≠ 0
}.

(** The [(user, item)] pairs of a ratings sequence and the sites the
    guide names after them. *)
Definition keys (l : list (rating num)) : list (nat * nat) := (λ r, r.1) <$> l.

Definition rating_sites (l : list (rating num)) : list name :=
  l ≫= λ '(u, i, _), [("user_context_{},{}", [u; i]); ("item_context_{},{}", [u; i])].

(** Invariant of a guide run: every recorded site lies before position
    [r] or is one of [extra]; the store is pristine and contains [w0]; no
    replay, no vectorized plate; the iterator is [itr]. *)
Record ginv (w0 : gmap name (tensor num)) (r : nat * nat * nat) (extra : list name)
    (itr : option (list (rating num))) (s : state num) : Prop := GInv {
  gi_names : ∀ n, n ∈ names (trace s) → lt3 (pos n) r ∨ n ∈ extra;
  gi_pristine : pristine (store s);
  gi_known : w0 ⊆ store s;
  gi_plates : plates s = [];
  gi_replayed : replayed s = [];
  gi_itr : ratings_itr s = itr
}.

(** The parameters the guide has created once its first four statements
    have run. *)
Definition after_prelude (w : gmap name (tensor num)) : gmap name (tensor num) :=
  <[("q_item_context_conc", []) := ones (num_context_latents hp)]>
    (<[("q_user_context_conc", []) := ones (num_context_latents hp)]> w).

(** How the guide fails on a ratings sequence that runs out. *)
Definition guide_E (w0 : gmap name (tensor num)) (rs : list (rating num))
    (e : exn) (s : state num) : Prop :=
  e = StopIteration ∧ length rs < num_nonmissing hp ∧
  ratings_itr s = Some [] ∧ w0 ⊆ store s ∧ pristine (store s).

End GuideVocabulary.

Section ValueVocabulary.
Context {num : Type} `{Numeric num}.

(** Sites whose value the rate of the model indexes by user. *)
Definition scalar_family (n : name) : Prop :=
  n.1 = "user_mean_{}" ∨ n.1 = "user_latents_{},{}".

Definition scalar_sites (tr : list (site num)) : Prop :=
  ∀ st, st ∈ tr → site_observed st = false → scalar_family (site_name st) →
        ∃ x, site_value st = T0 x.

(** No rating has been scored. *)
Definition no_obs (tr : list (site num)) : Prop :=
  ∀ st, st ∈ tr → (site_name st).1 ≠ "obs_rating_{},{}".

Definition unbound_or_scalar (x : option (tensor num)) : Prop :=
  match x with
  | None => True
  | Some t => ∃ v, t = T0 v
  end.

(** What holds of a guide run for as long as it does not raise. *)
Definition guide_values (hp : hyper num) (s : state num) : Prop :=
  pristine hp (store s) ∧ replayed s = [] ∧ plates s = [] ∧ scalar_sites (trace s).

(** What holds throughout a model run that replays [R]. *)
Definition model_values (R : list (site num)) (s : state num) : Prop :=
  replayed s = R ∧ plates s = [] ∧ no_obs (trace s).

End ValueVocabulary.

(** ** Vocabulary of the further properties *)

Section StoreVocabulary.
Context {num : Type} `{Numeric num}.

(** A run keeps a property of the parameter store. *)
Definition preserves {A : Type} (I : gmap name (tensor num) → Prop) (m : M num A) : Prop :=
  ∀ s, I (store s) → I (store (final (m s))).


End StoreVocabulary.

Section BPFVocabulary.
Context {num : Type} `{Numeric num}.


End BPFVocabulary.

Section ModelVocabulary.
Context {num : Type} `{Numeric num}.

(** Invariant of a model run on the store [w] that replays [R]: every
    recorded site lies before position [r] or is one of [extra]; the
    store is untouched; no vectorized plate; the iterator is [itr]. *)
Record minv (w : gmap name (tensor num)) (R : list (site num)) (r : nat * nat * nat)
    (extra : list name) (itr : option (list (rating num))) (s : state num) : Prop := MInv {
  mi_names : ∀ n, n ∈ names (trace s) → lt3 (pos n) r ∨ n ∈ extra;
  mi_store : store s = w;
  mi_plates : plates s = [];
  mi_replayed : replayed s = R;
  mi_itr : ratings_itr s = itr
}.

(** A trace whose two context-probability sites hold vectors. *)
Definition prob_sites (R : list (site num)) : Prop :=
  (∃ l, replay_value ("user_context_prob", []) R = Some (T1 l)) ∧
  (∃ l, replay_value ("item_context_prob", []) R = Some (T1 l)).

(** A local bound by a loop that has run [j] times holds a scalar. *)
Definition bound_scalar (j : nat) (x : option (tensor num)) : Prop :=
  j = 0 ∨ ∃ v, x = Some (T0 v).

End ModelVocabulary.

Section LogVocabulary.
Context {num : Type} `{Numeric num}.










End LogVocabulary.


(** ** The program logic *)

Section HoareRules.
Context {num : Type} `{Numeric num}.

Lemma hoare_bind {A B} P (m : M num A) (k : A → M num B) Q R E :
  hoare P m Q E → (∀ v, hoare (Q v) (k v) R E) → hoare P (m ≫= k) R E.
Proof.
  intros Hm Hk s Hs. unfold mbind, M_bind, bind.
  specialize (Hm s Hs). destruct (m s) as [v s'|e s']; [by apply Hk | done].
Qed.

Lemma hoare_ret {A} (P : state num → Prop) (v : A) (Q : A → state num → Prop) E :
  (∀ s, P s → Q v s) → hoare P (mret v) Q E.
Proof. intros HPQ s Hs. by apply HPQ. Qed.

Lemma hoare_bind_ret {A B} P (v : A) (k : A → M num B) Q E :
  hoare P (k v) Q E → hoare P (mret v ≫= k) Q E.
Proof. intros Hk s Hs. exact (Hk s Hs). Qed.

Lemma hoare_conseq {A} (P P' : state num → Prop) (m : M num A)
    (Q Q' : A → state num → Prop) (E E' : exn → state num → Prop) :
  hoare P' m Q' E' → (∀ s, P s → P' s) → (∀ v s, Q' v s → Q v s) →
  (∀ e s, E' e s → E e s) → hoare P m Q E.
Proof.
  intros Hm HP HQ HE s Hs. specialize (Hm s (HP s Hs)).
  destruct (m s); eauto.
Qed.

Lemma hoare_pure {A} (φ : Prop) P (m : M num A) Q E :
  (φ → hoare P m Q E) → hoare (λ s, φ ∧ P s) m Q E.
Proof. intros Hm s [Hφ Hs]. by apply Hm. Qed.

Lemma hoare_exists {A B} (P : B → state num → Prop) (m : M num A) Q E :
  (∀ x, hoare (P x) m Q E) → hoare (λ s, ∃ x, P x s) m Q E.
Proof. intros Hm s [x Hs]. by apply (Hm x). Qed.

Lemma hoare_for_range {A} (I : nat → A → state num → Prop) E
    (body : nat → A → M num A) n : ∀ start acc,
  (∀ j a, start ≤ j < start + n → hoare (I j a) (body j a) (I (S j)) E) →
  hoare (I start acc) (for_range start n body acc) (I (start + n)) E.
Proof.
  induction n as [|n IH]; intros start acc Hbody; simpl.
  - apply hoare_ret. intros s Hs. by rewrite Nat.add_0_r.
  - eapply hoare_bind; [apply Hbody; lia|].
    intros a. replace (start + S n) with (S start + n) by lia.
    apply IH. intros j a' Hj. apply Hbody. lia.
Qed.

Lemma hoare_for_plate {A} (I : nat → A → state num → Prop) P E n size
    (body : nat → A → M num A) acc :
  hoare P (pyro_plate n size) (λ _, I 0 acc) E →
  (∀ j a, j < size → hoare (I j a) (body j a) (I (S j)) E) →
  hoare P (for_plate n size body acc) (I size) E.
Proof.
  intros Hp Hb. unfold for_plate. eapply hoare_bind; [exact Hp|].
  intros []. apply (hoare_for_range I E body size 0 acc).
  intros j a Hj. apply Hb. lia.
Qed.

End HoareRules.

Lemma lt3_le3_trans a b c : lt3 a b → le3 b c → lt3 a c.
Proof. unfold lt3, le3. lia. Qed.

Ltac rk := unfold lt3, le3, pos; simpl; lia.

(** ** The primitives under the guide invariant *)

Section GuideRun.
Context {num : Type} `{Numeric num}.
Variable rnd : nat → name → nat → num.
Variable hp : hyper num.

Lemma broadcast_S0_r sh : broadcast sh S0 = Some sh.
Proof. by destruct sh. Qed.

Lemma add_node_fresh (st : site num) s :
  site_name st ∉ names (trace s) →
  add_node st s = Ok () (State (store s) (trace s ++ [st]) (replayed s) (plates s)
                               (ratings_itr s) (run_id s)).
Proof. intros Hn. unfold add_node. by rewrite decide_False. Qed.

Lemma ginv_add w0 r r' ex ex' itr (st : site num) s :
  ginv hp w0 r ex itr s →
  (lt3 (pos (site_name st)) r' ∨ site_name st ∈ ex') →
  le3 r r' →
  (∀ n, n ∈ ex → n ∈ ex') →
  ginv hp w0 r' ex' itr (State (store s) (trace s ++ [st]) (replayed s) (plates s)
                               (ratings_itr s) (run_id s)).
Proof.
  intros [Hn Hp Hk Hpl Hr Hi] Hst Hrr Hex. constructor; simpl; try done.
  intros n. unfold names. rewrite fmap_app, elem_of_app. simpl.
  rewrite list_elem_of_singleton. intros [Hin| ->]; [|done].
  destruct (Hn n Hin); [left|right]; eauto using lt3_le3_trans.
Qed.

Lemma ginv_fresh w0 r ex itr n s :
  ginv hp w0 r ex itr s → ¬ lt3 (pos n) r → n ∉ ex → n ∉ names (trace s).
Proof. intros [Hn _ _ _ _ _] Hr Hex Hin. destruct (Hn n Hin); done. Qed.

Lemma ginv_weaken w0 r r' ex ex' itr s :
  ginv hp w0 r ex itr s → le3 r r' → (∀ n, n ∈ ex → n ∈ ex') →
  ginv hp w0 r' ex' itr s.
Proof.
  intros [Hn Hp Hk Hpl Hr Hi] Hrr Hex. constructor; try done.
  intros n Hin. destruct (Hn n Hin); [left|right]; eauto using lt3_le3_trans.
Qed.

Lemma hoare_param w0 r ex itr n init E :
  init_of hp n = Some init →
  hoare (ginv hp w0 r ex itr) (pyro_param n init)
        (λ v s, v = init ∧ ginv hp (<[n := init]> w0) r ex itr s) E.
Proof.
  intros Hinit s [Hn Hp Hk Hpl Hr Hi]. unfold pyro_param.
  destruct (store s !! n) as [v|] eqn:Hv.
  - pose proof (Hp _ _ Hv) as Hv'. assert (v = init) as -> by congruence.
    split; [done|]. constructor; try done. by apply insert_subseteq_l.
  - split; [done|]. constructor; simpl; try done.
    + intros m v. rewrite lookup_insert. case_decide; [naive_solver|by apply Hp].
    + by apply insert_mono.
Qed.

Lemma hoare_param' w0 r ex itr n init E :
  init_of hp n = Some init →
  hoare (ginv hp w0 r ex itr) (pyro_param n init)
        (λ v s, v = init ∧ ginv hp w0 r ex itr s) E.
Proof.
  intros Hinit s Hs. pose proof (gi_known _ _ _ _ _ _ Hs) as Hk.
  assert (ginv hp ∅ r ex itr s) as Hs'.
  { destruct Hs. constructor; try done. apply map_empty_subseteq. }
  pose proof (hoare_param ∅ r ex itr n init E Hinit s Hs') as Hp.
  unfold pyro_param in *. destruct (store s !! n) as [v|] eqn:Hv.
  - destruct Hp as [-> _]. done.
  - destruct Hp as [_ Hp]. split; [done|]. destruct Hp. constructor; try done.
    simpl. etrans; [exact Hk|]. by apply insert_subseteq.
Qed.

Lemma hoare_sample w0 r r' ex ex' itr n d E :
  is_Some (draw_shape d) →
  ¬ lt3 (pos n) r → n ∉ ex →
  (lt3 (pos n) r' ∨ n ∈ ex') →
  le3 r r' →
  (∀ m, m ∈ ex → m ∈ ex') →
  hoare (ginv hp w0 r ex itr) (pyro_sample rnd n d) (λ _, ginv hp w0 r' ex' itr) E.
Proof.
  intros [sh Hsh] Hr Hex Hn' Hrr Hee s Hs. unfold pyro_sample.
  rewrite (gi_replayed _ _ _ _ _ _ Hs). simpl.
  unfold sample_shape. rewrite Hsh, (gi_plates _ _ _ _ _ _ Hs). simpl.
  rewrite broadcast_S0_r.
  unfold mbind, M_bind, bind. rewrite add_node_fresh; [|by eapply ginv_fresh].
  simpl. eapply ginv_add; eauto.
Qed.

Lemma hoare_plate w0 r r' ex itr n size E :
  size ≠ 0 →
  ¬ lt3 (pos n) r → n ∉ ex →
  lt3 (pos n) r' →
  le3 r r' →
  hoare (ginv hp w0 r ex itr) (pyro_plate n size) (λ _, ginv hp w0 r' ex itr) E.
Proof.
  intros Hsz Hr Hex Hn' Hrr s Hs. unfold pyro_plate.
  unfold mbind, M_bind, bind. rewrite add_node_fresh; [|by eapply ginv_fresh].
  rewrite decide_False by done. simpl. eapply ginv_add; eauto.
Qed.

Lemma hoare_next w0 r ex (rs : list (rating num)) :
  hoare (ginv hp w0 r ex (Some rs)) next_rating
    (λ x s, ∃ rest, rs = x :: rest ∧ ginv hp w0 r ex (Some rest) s)
    (λ e s, e = StopIteration ∧ rs = [] ∧ ginv hp w0 r ex (Some []) s).
Proof.
  intros s Hs. unfold next_rating. rewrite (gi_itr _ _ _ _ _ _ Hs).
  destruct rs as [|x rest].
  - done.
  - exists rest. split; [done|]. destruct Hs. by constructor.
Qed.

Lemma hoare_iter w0 r ex itr (rs : list (rating num)) E :
  hoare (ginv hp w0 r ex itr) (iter_ratings rs) (λ _, ginv hp w0 r ex (Some rs)) E.
Proof. intros s Hs. unfold iter_ratings. destruct Hs. by constructor. Qed.

End GuideRun.

Section RatingSites.
Context {num : Type}.

Lemma rating_sites_snoc (l : list (rating num)) (r : rating num) n :
  n ∈ rating_sites (l ++ [r]) ↔
  n ∈ rating_sites l ∨ n = ("user_context_{},{}", [r.1.1; r.1.2])
                     ∨ n = ("item_context_{},{}", [r.1.1; r.1.2]).
Proof.
  unfold rating_sites. rewrite bind_app, elem_of_app. simpl.
  destruct r as [[u i] x]. simpl.
  rewrite ?app_nil_r, !elem_of_cons, elem_of_nil. tauto.
Qed.

Lemma rating_sites_key (l : list (rating num)) p (idx : list nat) :
  (p, idx) ∈ rating_sites l → ∃ u i, idx = [u; i] ∧ (u, i) ∈ keys l.
Proof.
  unfold rating_sites, keys. rewrite list_elem_of_bind.
  intros ([[u i] x] & Hin & Hr). exists u, i. split.
  - rewrite !elem_of_cons, elem_of_nil in Hin. destruct Hin as [[= _ ->]|[[= _ ->]|[]]]; done.
  - apply list_elem_of_fmap. by exists (u, i, x).
Qed.

End RatingSites.

(** ** A run of the MMPF guide *)

Section GuideSpec.
Context {num : Type} `{Numeric num}.
Variable rnd : nat → name → nat → num.
Variable hp : hyper num.
Hypothesis Hvalid : valid hp.

Ltac side :=
  first [ by eexists | rk | by apply not_elem_of_nil | (left; rk) | by auto ].

Ltac p_param :=
  eapply hoare_bind;
    [apply hoare_param'; reflexivity | intros ?; apply hoare_pure; intros ->].

Ltac p_sample r' :=
  eapply hoare_bind;
    [apply (hoare_sample rnd hp _ _ r' [] []); side | intros ?].

Ltac p_plate := apply hoare_plate; first [ done | side ].

Ltac p_loop I :=
  eapply hoare_conseq; [apply (hoare_for_plate I) | done | | done];
    [ p_plate | | intros [] ? ?; eapply ginv_weaken; [eassumption | rk | done] ].

Lemma guide_user_contexts w0 E :
  hoare (ginv hp w0 (1, 0, 0) [] None)
    (for_plate ("user_contexts_loop", []) (num_contexts hp) (λ c _,
        for_plate ("user_context_latents_loop_{}", [c]) (num_context_latents hp) (λ v _,
          q_aucv ← pyro_param ("q_aucv_{},{}", [c; v]) (T0 (a_c hp));
          q_bucv ← pyro_param ("q_bucv_{},{}", [c; v]) (T0 (b_c hp));
          user_context_latents ←
            pyro_sample rnd ("user_context_latents_{},{}", [c; v]) (Gamma q_aucv q_bucv);
          mret ()) ()) ())
    (λ _, ginv hp w0 (2, 0, 0) [] None) E.
Proof.
  destruct Hvalid.
  p_loop (λ (c : nat) (_ : ()), ginv hp w0 (1, S c, 0) [] None).
  intros c [] Hc.
  p_loop (λ (v : nat) (_ : ()), ginv hp w0 (1, S c, S v) [] None).
  intros v [] Hv. p_param. p_param. p_sample (1, S c, S (S v)).
  by apply hoare_ret.
Qed.

Lemma guide_item_contexts w0 E :
  hoare (ginv hp w0 (2, 0, 0) [] None)
    (for_plate ("item_contexts_loop", []) (num_contexts hp) (λ c _,
        for_plate ("item_context_latents_loop_{}", [c]) (num_context_latents hp) (λ v _,
          q_aicv ← pyro_param ("q_aicv_{},{}", [c; v]) (T0 (a_c hp));
          q_bicv ← pyro_param ("q_bicv_{},{}", [c; v]) (T0 (b_c hp));
          item_context_latents ←
            pyro_sample rnd ("item_context_latents_{},{}", [c; v]) (Gamma q_aicv q_bicv);
          mret ()) ()) ())
    (λ _, ginv hp w0 (3, 0, 0) [] None) E.
Proof.
  destruct Hvalid.
  p_loop (λ (c : nat) (_ : ()), ginv hp w0 (2, S c, 0) [] None).
  intros c [] Hc.
  p_loop (λ (v : nat) (_ : ()), ginv hp w0 (2, S c, S v) [] None).
  intros v [] Hv. p_param. p_param. p_sample (2, S c, S (S v)).
  by apply hoare_ret.
Qed.

Lemma guide_users w0 E :
  hoare (ginv hp w0 (3, 0, 0) [] None)
    (for_plate ("users_loop", []) (num_users hp) (λ u _,
        q_au ← pyro_param ("q_au_{}", [u]) (T0 (a_u hp));
        q_bu ← pyro_param ("q_bu_{}", [u]) (T0 (b_u hp));
        let user_mean_dist := Gamma q_au q_bu in
        user_mean ← pyro_sample rnd ("user_mean_{}", [u]) user_mean_dist;
        for_plate ("user_latents_loop_{}", [u]) (num_latents hp) (λ l _,
          q_lu1 ← pyro_param ("q_lu1_{},{}", [u; l]) (T0 (c_u hp));
          q_lu2 ← pyro_param ("q_lu2_{},{}", [u; l]) (T0 fone);
          let user_latents_dist := Gamma q_lu1 q_lu2 in
          user_latents ← pyro_sample rnd ("user_latents_{},{}", [u; l]) user_latents_dist;
          mret ()) ()) ())
    (λ _, ginv hp w0 (4, 0, 0) [] None) E.
Proof.
  destruct Hvalid.
  p_loop (λ (u : nat) (_ : ()), ginv hp w0 (3, S u, 0) [] None).
  intros u [] Hu. p_param. p_param. simpl. p_sample (3, S u, 1).
  p_loop (λ (l : nat) (_ : ()), ginv hp w0 (3, S u, S (S l)) [] None).
  intros l [] Hl. p_param. p_param. simpl. p_sample (3, S u, S (S (S l))).
  by apply hoare_ret.
Qed.

Lemma guide_items w0 E :
  hoare (ginv hp w0 (4, 0, 0) [] None)
    (for_plate ("items_loop", []) (num_items hp) (λ i _,
        q_ai ← pyro_param ("q_ai_{}", [i]) (T0 (a_i hp));
        q_bi ← pyro_param ("q_bi_{}", [i]) (T0 (b_i hp));
        let item_mean_dist := Gamma q_ai q_bi in
        item_mean ← pyro_sample rnd ("item_mean_{}", [i]) item_mean_dist;
        for_plate ("item_latents_loop_{}", [i]) (num_latents hp) (λ l _,
          q_li1 ← pyro_param ("q_li1_{},{}", [i; l]) (T0 (c_u hp));
          q_li2 ← pyro_param ("q_li2_{},{}", [i; l]) (T0 fone);
          let item_latents_dist := Gamma q_li1 q_li2 in
          item_latents ← pyro_sample rnd ("item_latents_{},{}", [i; l]) item_latents_dist;
          mret ()) ()) ())
    (λ _, ginv hp w0 (5, 0, 0) [] None) E.
Proof.
  destruct Hvalid.
  p_loop (λ (i : nat) (_ : ()), ginv hp w0 (4, S i, 0) [] None).
  intros i [] Hi. p_param. p_param. simpl. p_sample (4, S i, 1).
  p_loop (λ (l : nat) (_ : ()), ginv hp w0 (4, S i, S (S l)) [] None).
  intros l [] Hl. p_param. p_param. simpl. p_sample (4, S i, S (S (S l))).
  by apply hoare_ret.
Qed.

Lemma guide_ratings w0 (rs : list (rating num)) :
  NoDup (keys (take (num_nonmissing hp) rs)) →
  hoare (ginv hp w0 (5, 0, 0) [] (Some rs))
    (for_plate ("ratings", []) (num_nonmissing hp) (λ _ _,
        '(u, i, r) ← next_rating;
        q_zu ← pyro_param ("q_zu_{},{}", [u; i]) (ones (num_contexts hp));
        q_zi ← pyro_param ("q_zi_{},{}", [u; i]) (ones (num_contexts hp));
        z_u ← pyro_sample rnd ("user_context_{},{}", [u; i]) (Categorical q_zu);
        z_i ← pyro_sample rnd ("item_context_{},{}", [u; i]) (Categorical q_zi);
        mret ()) ())
    (λ _ s, num_nonmissing hp ≤ length rs ∧
            ginv hp w0 (6, 0, 0) (rating_sites (take (num_nonmissing hp) rs))
                 (Some (drop (num_nonmissing hp) rs)) s)
    (guide_E hp w0 rs).
Proof.
  intros Hnd. destruct Hvalid.
  apply (hoare_for_plate (λ j (_ : ()) s, j ≤ length rs ∧
           ginv hp w0 (6, 0, 0) (rating_sites (take j rs)) (Some (drop j rs)) s)).
  - eapply hoare_conseq;
      [apply (hoare_plate hp w0 (5,0,0) (6,0,0) [] (Some rs)); first [done|side]
      | done | | done].
    intros [] s Hs. split; [lia|]. by rewrite take_0, drop_0.
  - intros j [] Hj. apply hoare_pure. intros Hjl.
    eapply hoare_bind.
    { eapply hoare_conseq; [apply (hoare_next hp w0 (6,0,0))|done|done|].
      intros e s (-> & Hd & Hs). split; [done|].
      assert (length (drop j rs) = 0) as Hl by by rewrite Hd.
      rewrite length_drop in Hl. destruct Hs. repeat split; try done. lia. }
    intros [[u i] x]. apply hoare_exists. intros rest. apply hoare_pure. intros Hd.
    assert (rs !! j = Some (u, i, x)) as Hj'.
    { rewrite <- (Nat.add_0_r j), <- lookup_drop, Hd. done. }
    assert (drop (S j) rs = rest) as Hd'.
    { replace (S j) with (j + 1) by lia. rewrite <- (drop_drop rs 1 j), Hd. done. }
    assert (take (S j) rs = take j rs ++ [(u, i, x)]) as Ht by by apply take_S_r.
    assert ((u, i) ∉ keys (take j rs)) as Hfresh.
    { intros Hin. unfold keys in *.
      apply list_elem_of_lookup in Hin as [j' Hj''].
      rewrite list_lookup_fmap in Hj''.
      destruct (take j rs !! j') as [[[u' i'] x']|] eqn:Hlk; [|done].
      simpl in Hj''. injection Hj'' as -> ->.
      pose proof (lookup_lt_Some _ _ _ Hlk) as Hlt. rewrite length_take in Hlt.
      rewrite lookup_take_lt in Hlk by lia.
      eapply (NoDup_lookup _ j' j (u, i)) in Hnd; [lia| |].
      - rewrite list_lookup_fmap, lookup_take_lt by lia. by rewrite Hlk.
      - rewrite list_lookup_fmap, lookup_take_lt by lia. by rewrite Hj'. }
    assert (j < length rs) by by eapply lookup_lt_Some.
    rewrite Hd', Ht.
    p_param. p_param.
    eapply hoare_bind.
    { apply (hoare_sample rnd hp w0 (6,0,0) (6,0,0) (rating_sites (take j rs))
               (rating_sites (take j rs) ++ [("user_context_{},{}", [u; i])])).
      - by eexists.
      - rk.
      - intros Hin. apply rating_sites_key in Hin as (u' & i' & [= <- <-] & Hin). done.
      - right. rewrite elem_of_app, list_elem_of_singleton. by right.
      - rk.
      - intros m Hm. rewrite elem_of_app. by left. }
    intros ?.
    eapply hoare_bind.
    { apply (hoare_sample rnd hp w0 (6,0,0) (6,0,0)
               (rating_sites (take j rs) ++ [("user_context_{},{}", [u; i])])
               (rating_sites (take j rs ++ [(u, i, x)]))).
      - by eexists.
      - rk.
      - rewrite elem_of_app, list_elem_of_singleton. intros [Hin|[=]].
        apply rating_sites_key in Hin as (u' & i' & [= <- <-] & Hin). done.
      - right. rewrite rating_sites_snoc. right. right. reflexivity.
      - rk.
      - intros m. rewrite elem_of_app, list_elem_of_singleton, rating_sites_snoc. simpl.
        tauto. }
    intros ?. apply hoare_ret. intros s Hs. split; [lia|done].
Qed.

(** A whole run of the guide from a pristine store: it returns having
    taken [num_nonmissing] ratings, or stops at the end of a shorter
    sequence. *)
Lemma guide_run (self : MMPF.obj) (rs : list (rating num)) extra k w :
  MMPF.hyperparams self = Some hp →
  length extra ≤ 1 →
  pristine hp w →
  NoDup (keys (take (num_nonmissing hp) rs)) →
  match MMPF._guide rnd self rs extra (fresh_run k w []) with
  | Ok _ s =>
      num_nonmissing hp ≤ length rs ∧
      ginv hp (after_prelude hp w) (6, 0, 0) (rating_sites (take (num_nonmissing hp) rs))
           (Some (drop (num_nonmissing hp) rs)) s
  | Raise e s => guide_E hp (after_prelude hp w) rs e s
  end.
Proof.
  intros Hself Hextra Hw Hnd.
  assert (ginv hp w (0, 0, 0) [] None (fresh_run k w [])) as Hs0.
  { constructor; simpl; try done. intros n Hn. by apply elem_of_nil in Hn. }
  revert Hs0. generalize (fresh_run k w []). 
  change (hoare (ginv hp w (0, 0, 0) [] None) (MMPF._guide rnd self rs extra)
    (λ _ s, num_nonmissing hp ≤ length rs ∧
       ginv hp (after_prelude hp w) (6, 0, 0) (rating_sites (take (num_nonmissing hp) rs))
            (Some (drop (num_nonmissing hp) rs)) s)
    (guide_E hp (after_prelude hp w) rs)).
  assert (MMPF._guide rnd self rs extra = MMPF._guide rnd self rs []) as ->.
  { destruct extra as [|? [|? ?]]; try done. simpl in Hextra. lia. }
  unfold MMPF._guide. rewrite Hself. apply hoare_bind_ret.
  eapply hoare_bind; [apply hoare_param; reflexivity|].
  intros ?; apply hoare_pure; intros ->.
  eapply hoare_bind; [apply hoare_param; reflexivity|].
  intros ?; apply hoare_pure; intros ->.
  fold (after_prelude hp w).
  p_sample (0, 1, 0). p_sample (1, 0, 0).
  eapply hoare_bind; [apply guide_user_contexts|]. intros ?.
  eapply hoare_bind; [apply guide_item_contexts|]. intros ?.
  eapply hoare_bind; [apply guide_users|]. intros ?.
  eapply hoare_bind; [apply guide_items|]. intros ?.
  eapply hoare_bind; [apply hoare_iter|]. intros ?.
  by apply guide_ratings.
Qed.

End GuideSpec.

(** ** Runs only grow the trace and the store *)

Section Monotone.
Context {num : Type} `{Numeric num}.
Variable rnd : nat → name → nat → num.

Lemma extends_refl (s : state num) : extends s s.
Proof. split; done. Qed.

Lemma extends_trans (s1 s2 s3 : state num) :
  extends s1 s2 → extends s2 s3 → extends s1 s3.
Proof. intros [? ?] [? ?]. split; by etrans. Qed.

Lemma monotone_ret {A} (v : A) : monotone (mret v : M num A).
Proof. intros s. apply extends_refl. Qed.

Lemma monotone_raise {A} e : monotone (raise e : M num A).
Proof. intros s. apply extends_refl. Qed.

Lemma monotone_bind {A B} (m : M num A) (k : A → M num B) :
  monotone m → (∀ v, monotone (k v)) → monotone (m ≫= k).
Proof.
  intros Hm Hk s. unfold mbind, M_bind, bind. specialize (Hm s).
  destruct (m s) as [v s'|e s']; simpl in *; [|done].
  eapply extends_trans; [exact Hm|apply Hk].
Qed.

Lemma monotone_lift {A} (r : result A) : monotone (lift r : M num A).
Proof. destruct r; [apply monotone_ret|apply monotone_raise]. Qed.

Lemma monotone_read_local {A} (x : option A) : monotone (read_local x : M num A).
Proof. destruct x; [apply monotone_ret|apply monotone_raise]. Qed.

Lemma monotone_subscriptable (h : option (hyper num)) : monotone (subscriptable h).
Proof. destruct h; [apply monotone_ret|apply monotone_raise]. Qed.

Lemma monotone_add_node (st : site num) : monotone (add_node st).
Proof.
  intros s. unfold add_node. case_decide; simpl; [apply extends_refl|].
  split; simpl; [by apply prefix_app_r|done].
Qed.

Lemma monotone_sample n d : monotone (pyro_sample rnd n d).
Proof.
  intros s. unfold pyro_sample.
  destruct (replay_value n (replayed s)).
  - apply (monotone_bind (add_node _) (λ _, mret _));
      [apply monotone_add_node|intros; apply monotone_ret].
  - destruct (sample_shape d (plates s)); [|apply extends_refl].
    apply (monotone_bind (add_node _) (λ _, mret _));
      [apply monotone_add_node|intros; apply monotone_ret].
Qed.

Lemma monotone_observe n d (obs : tensor num) : monotone (pyro_observe n d obs).
Proof. apply monotone_add_node. Qed.

Lemma monotone_param n (init : tensor num) : monotone (pyro_param n init).
Proof.
  intros s. unfold pyro_param. destruct (store s !! n) eqn:Hn; simpl.
  - apply extends_refl.
  - split; simpl; [done|by apply insert_subseteq].
Qed.

Lemma monotone_plate n size : monotone (pyro_plate (num:=num) n size).
Proof.
  unfold pyro_plate. apply monotone_bind.
  - intros s. apply monotone_add_node.
  - intros _. case_decide; [apply monotone_raise|apply monotone_ret].
Qed.

Lemma monotone_for_range {A} (body : nat → A → M num A) n : ∀ start acc,
  (∀ j a, monotone (body j a)) → monotone (for_range start n body acc).
Proof.
  induction n as [|n IH]; intros start acc Hb; simpl.
  - apply monotone_ret.
  - apply monotone_bind; [apply Hb|]. intros a. by apply IH.
Qed.

Lemma monotone_for_plate {A} n size (body : nat → A → M num A) acc :
  (∀ j a, monotone (body j a)) → monotone (for_plate n size body acc).
Proof.
  intros Hb. unfold for_plate. apply monotone_bind; [apply monotone_plate|].
  intros _. by apply monotone_for_range.
Qed.

Lemma monotone_iter (rs : list (rating num)) : monotone (iter_ratings rs).
Proof. intros s. split; done. Qed.

Lemma monotone_next : monotone (next_rating (num:=num)).
Proof.
  intros s. unfold next_rating.
  destruct (ratings_itr s) as [[|r rest]|]; split; done.
Qed.

End Monotone.

Ltac mono :=
  repeat first
    [ apply monotone_ret | apply monotone_raise | apply monotone_lift
    | apply monotone_read_local | apply monotone_subscriptable
    | apply monotone_sample | apply monotone_observe | apply monotone_param
    | apply monotone_iter | apply monotone_next
    | apply monotone_for_plate; intros ? ?
    | apply monotone_bind; [|intros ?]
    | match goal with
      | |- monotone (let '(_, _) := ?x in _) => destruct x
      end
    | progress cbv zeta ].

Section MonotoneRuns.
Context {num : Type} `{Numeric num}.
Variable rnd : nat → name → nat → num.

Lemma monotone_rate ul il ucl icl user item (z_u z_i : tensor num) :
  monotone (MMPF.rate ul il ucl icl user item z_u z_i).
Proof. unfold MMPF.rate. mono. Qed.

Lemma monotone_model self rs extra : monotone (MMPF._model rnd self rs extra).
Proof.
  unfold MMPF._model. destruct extra; [|apply monotone_raise].
  mono.
Qed.

Lemma monotone_guide self rs extra : monotone (MMPF._guide rnd self rs extra).
Proof.
  unfold MMPF._guide. destruct extra as [|? [|? ?]]; [| |apply monotone_raise]; mono.
Qed.

End MonotoneRuns.

(** ** The training loop *)

Section Loop.
Context {num : Type}.

Lemma train_loop_spec (step : nat → gmap name (tensor num) → gmap name (tensor num) * result num)
    n : ∀ s w losses,
  ∃ new w1, steps_run step s w new w1 ∧
    match train_loop step s n w losses with
    | (w', losses', None) => losses' = losses ++ new ∧ w' = w1 ∧ length new = n
    | (w', losses', Some e) =>
        losses' = losses ++ new ∧ length new < n ∧
        step (s + length new) w1 = (w', Raises e)
    end.
Proof.
  induction n as [|n IH]; intros s w losses; simpl.
  - exists [], w. split; [constructor|]. by rewrite app_nil_r.
  - destruct (step s w) as [w' [loss|e]] eqn:Hstep.
    + destruct (IH (S s) w' (losses ++ [loss])) as (new & w1 & Hrun & Hloop).
      exists (loss :: new), w1. split; [by econstructor|].
      destruct (train_loop step (S s) n w' (losses ++ [loss])) as [[w'' losses'] [e|]].
      * destruct Hloop as (-> & Hlt & Hfail). rewrite <- app_assoc. simpl.
        split; [done|]. split; [lia|].
        by replace (s + S (length new)) with (S s + length new) by lia.
      * destruct Hloop as (-> & -> & Hlen). rewrite <- app_assoc. simpl.
        repeat split; try done. lia.
    + exists [], w. split; [constructor|]. rewrite app_nil_r, Nat.add_0_r. simpl.
      repeat split; try done. lia.
Qed.

End Loop.

(** ** BPF.fit *)

Section BPFClaims.
Context {num : Type} `{Numeric num}.
Variable rnd : nat → name → nat → num.
Variable loss_and_grads :
  nat → list (site num) → list (site num) → gmap name (tensor num) →
  result (num * gmap name (tensor num)).

Lemma BPF_model_two_arguments self ratings h (s : state num) :
  BPF._model rnd self ratings [h] s = Raise TypeError s.
Proof. reflexivity. Qed.

Lemma BPF_model_unbound_local self ratings (s : state num) :
  BPF._model rnd self ratings [] s = Raise UnboundLocalError s.
Proof. reflexivity. Qed.

Lemma BPF_step_raises self ratings h k w :
  ∃ w' e, svi_step loss_and_grads (BPF._model rnd self) (BPF._guide rnd self) k ratings [h] w
          = (w', Raises e).
Proof.
  unfold svi_step.
  destruct (BPF._guide rnd self ratings [h] (fresh_run k w [])) as [[] s|e s].
  - rewrite BPF_model_two_arguments. by eexists _, _.
  - by eexists _, _.
Qed.

(** C5. Every call of [BPF.fit] with a step budget of at least one ends in
    an exception without having completed a training step: [_model],
    which accepts [ratings] only, raises a [TypeError] on the two
    positional arguments [(ratings, hyperparams)] that every step hands
    it, and its body would read the local [hyperparams] before any
    assignment ([UnboundLocalError]) if it were called with one.  Either
    [fit] raises before the loop, or the first step raises and the loop
    leaves with no loss recorded. *)
Theorem BPF_fit_never_completes_a_step
    (self : BPF.obj) (ratings : list (rating num)) (hyperparams : option (hyper num))
    (num_steps : nat) (w : gmap name (tensor num)) :
  0 < num_steps →
  (∀ h s, BPF._model rnd self ratings [h] s = Raise TypeError s) ∧
  (∀ s, BPF._model rnd self ratings [] s = Raise UnboundLocalError s) ∧
  match BPF.fit_hyperparams self hyperparams with
  | Raises e =>
      BPF.fit rnd loss_and_grads self ratings hyperparams num_steps w
      = (self, (w, Raises e))
  | Returns (self', h) =>
      ∃ w' e,
        BPF.fit_train rnd loss_and_grads self' ratings h num_steps w = (w', [], Some e) ∧
        BPF.fit rnd loss_and_grads self ratings hyperparams num_steps w
        = (self', (w', Raises e))
  end.
Proof.
  intros Hn. split; [done|]. split; [done|].
  unfold BPF.fit. destruct (BPF.fit_hyperparams self hyperparams) as [[self' h]|e]; [|done].
  destruct num_steps as [|n]; [lia|].
  destruct (BPF_step_raises self' ratings h 0 w) as (w' & e & Hstep).
  exists w', e. unfold BPF.fit_train. simpl. rewrite Hstep. done.
Qed.

(** C9. [BPF.fit] discards a [hyperparams] argument that is not [None]:
    the object is left as it is and training runs on the stored
    [self.hyperparams].  With [hyperparams=None] and hyperparameters
    stored, [fit] overwrites [self.hyperparams] with [None] before
    training, which then runs on an object without hyperparameters (and
    whose guide raises a [TypeError] on the first subscript of [None]). *)
Theorem BPF_fit_hyperparams_argument
    (self : BPF.obj) (given stored : hyper num) (ratings : list (rating num))
    (num_steps : nat) (w : gmap name (tensor num)) :
  BPF.fit_hyperparams self (Some given) = Returns (self, BPF.hyperparams self) ∧
  BPF.fit rnd loss_and_grads self ratings (Some given) num_steps w
  = (self, leave_fit (BPF.fit_train rnd loss_and_grads self ratings
                        (BPF.hyperparams self) num_steps w)) ∧
  BPF.fit_hyperparams (BPF.New (Some stored)) None = Returns (BPF.New None, None) ∧
  BPF.fit rnd loss_and_grads (BPF.New (Some stored)) ratings None num_steps w
  = (BPF.New None, leave_fit (BPF.fit_train rnd loss_and_grads (BPF.New None) ratings
                                None num_steps w)) ∧
  BPF.fit rnd loss_and_grads (BPF.New (Some stored)) ratings None (S num_steps) w
  = (BPF.New None, (w, Raises TypeError)).
Proof. repeat split; reflexivity. Qed.

End BPFClaims.

(** ** The loop of [fit] and exceptions *)

Section FitLoop.
Context {num : Type}.

(** C7 (amended). [fit] has no error handling.  The losses of the steps
    that returned are appended in order; if every step returns, [fit]
    returns exactly [num_steps] losses, whatever their values; if a step
    raises, [fit] ends with that very exception and the losses collected
    so far are dropped with the frame: nothing is returned. *)
Theorem fit_drops_losses_on_error
    (step : nat → gmap name (tensor num) → gmap name (tensor num) * result num)
    (num_steps : nat) (w : gmap name (tensor num)) :
  ∃ new w1, steps_run step 0 w new w1 ∧
    match train_loop step 0 num_steps w [] with
    | (w', losses, None) =>
        losses = new ∧ w' = w1 ∧ length new = num_steps ∧
        leave_fit (w', losses, None) = (w', Returns new)
    | (w', losses, Some e) =>
        losses = new ∧ length new < num_steps ∧
        step (length new) w1 = (w', Raises e) ∧
        leave_fit (w', losses, Some e) = (w', Raises e) ∧
        returned_losses (leave_fit (w', losses, Some e)) = None
    end.
Proof.
  destruct (train_loop_spec step num_steps 0 w []) as (new & w1 & Hrun & Hloop).
  exists new, w1. split; [done|].
  destruct (train_loop step 0 num_steps w []) as [[w' losses] [e|]]; simpl in *.
  - destruct Hloop as (-> & Hlt & Hstep). done.
  - destruct Hloop as (-> & -> & Hlen). done.
Qed.

End FitLoop.

(** C7 as stated fails: a run of three steps whose second step raises
    ends in the exception alone; the loss of the first step is lost. *)
Lemma partial_losses_not_returned :
  train_loop failing_step 0 3 ∅ [] = (∅, [7%Z], Some ValueError) ∧
  leave_fit (train_loop failing_step 0 3 ∅ []) = (∅, Raises ValueError) ∧
  returned_losses (leave_fit (train_loop failing_step 0 3 ∅ [])) = None.
Proof. repeat split; reflexivity. Qed.

(** ** The context-probability sites of MMPF *)

Section ContextSites.
Context {num : Type} `{Numeric num}.
Variable rnd : nat → name → nat → num.

Lemma final_bind_ok {A B} (m : M num A) (k : A → M num B) s v s' :
  m s = Ok v s' → final ((m ≫= k) s) = final (k v s').
Proof. intros Hm. unfold mbind, M_bind, bind. by rewrite Hm. Qed.




Lemma ones_shape n : shape_of (ones n : tensor num) = S1 n.
Proof. unfold ones. simpl. by rewrite length_replicate. Qed.



Lemma q_context_conc_draw (hp : hyper num) :
  sample_shape (Dirichlet (MMPF.q_context_conc_init hp)) []
  = Some (S1 (num_context_latents hp)).
Proof.
  unfold sample_shape, MMPF.q_context_conc_init, draw_shape.
  rewrite ones_shape. reflexivity.
Qed.


Lemma param_returns_init hp n (init : tensor num) (s : state num) :
  pristine hp (store s) → init_of hp n = Some init →
  ∃ w', pyro_param n init s
        = Ok init (State w' (trace s) (replayed s) (plates s) (ratings_itr s) (run_id s))
        ∧ pristine hp w' ∧ w' !! n = Some init.
Proof.
  intros Hp Hinit. unfold pyro_param. destruct (store s !! n) as [v|] eqn:Hv.
  - pose proof (Hp _ _ Hv). assert (v = init) as -> by congruence.
    exists (store s). by destruct s.
  - eexists. split; [reflexivity|]. split; [|by apply lookup_insert_eq].
    intros m v. rewrite lookup_insert. case_decide; [naive_solver|by apply Hp].
Qed.



End ContextSites.

Lemma pristine_empty {num} `{Numeric num} (hp : hyper num) : pristine hp ∅.
Proof. intros n v Hn. by rewrite lookup_empty in Hn. Qed.


(** ** MMPF.fit on a ratings sequence that is too short *)

Section ShortRatings.
Context {num : Type} `{Numeric num}.
Variable rnd : nat → name → nat → num.
Variable loss_and_grads :
  nat → list (site num) → list (site num) → gmap name (tensor num) →
  result (num * gmap name (tensor num)).


(** With enough ratings the guide returns, having taken exactly the first
    [num_nonmissing] of them, in order. *)
Lemma MMPF_guide_consumes
    (self : MMPF.obj) (hp : hyper num) (ratings : list (rating num))
    (k : nat) (w : gmap name (tensor num)) :
  MMPF.hyperparams self = Some hp →
  valid hp →
  pristine hp w →
  NoDup (keys (take (num_nonmissing hp) ratings)) →
  num_nonmissing hp ≤ length ratings →
  ∃ s, MMPF._guide rnd self ratings [] (fresh_run k w []) = Ok () s ∧
       ratings_itr s = Some (drop (num_nonmissing hp) ratings) ∧
       consumed ratings s = num_nonmissing hp.
Proof.
  intros Hself Hv Hw Hnd Hlen.
  pose proof (guide_run rnd hp Hv self ratings [] k w Hself (Nat.le_0_l 1) Hw Hnd) as Hrun.
  destruct (MMPF._guide rnd self ratings [] (fresh_run k w [])) as [[] s|e s] eqn:Hg.
  - destruct Hrun as [_ Hs]. exists s. split; [done|].
    pose proof (gi_itr _ _ _ _ _ _ Hs) as Hitr. split; [done|].
    unfold consumed. rewrite Hitr, length_drop. lia.
  - destruct Hrun as (_ & Hlt & _). lia.
Qed.

End ShortRatings.




(** ** Values along guide and model runs *)

Section ValuePass.
Context {num : Type} `{Numeric num}.
Variable rnd : nat → name → nat → num.

Lemma replay_value_elem n (R : list (site num)) v :
  replay_value n R = Some v →
  ∃ st, st ∈ R ∧ site_name st = n ∧ site_observed st = false ∧ site_value st = v.
Proof.
  unfold replay_value. intros Hv.
  destruct (filter _ R) as [|st rest] eqn:Hf; [done|]. simpl in Hv.
  injection Hv as <-. exists st.
  assert (st ∈ filter (λ st, site_name st = n ∧ site_observed st = false) R) as Hin.
  { rewrite Hf. apply elem_of_cons. by left. }
  apply list_elem_of_filter in Hin as [[? ?] ?]. done.
Qed.

Lemma scalar_sites_snoc (tr : list (site num)) st :
  scalar_sites tr →
  (site_observed st = false → scalar_family (site_name st) → ∃ x, site_value st = T0 x) →
  scalar_sites (tr ++ [st]).
Proof.
  intros Htr Hst st' Hin. apply elem_of_app in Hin as [Hin|Hin]; [by apply Htr|].
  apply list_elem_of_singleton in Hin as ->. done.
Qed.

Lemma no_obs_snoc (tr : list (site num)) st :
  no_obs tr → (site_name st).1 ≠ "obs_rating_{},{}" → no_obs (tr ++ [st]).
Proof.
  intros Htr Hst st' Hin. apply elem_of_app in Hin as [Hin|Hin]; [by apply Htr|].
  apply list_elem_of_singleton in Hin as ->. done.
Qed.

(** *** Guide *)

Lemma gv_param hp n (init : tensor num) :
  init_of hp n = Some init →
  hoare (guide_values hp) (pyro_param n init)
        (λ v s, v = init ∧ guide_values hp s) (λ _ _, True).
Proof.
  intros Hinit s (Hp & Hr & Hpl & Hsc).
  destruct (param_returns_init hp n init s Hp Hinit) as (w' & -> & Hw' & _).
  split; [done|]. done.
Qed.

Lemma gv_sample hp n d :
  (scalar_family n → draw_shape d = Some S0) →
  hoare (guide_values hp) (pyro_sample rnd n d)
        (λ _ s, guide_values hp s) (λ _ _, True).
Proof.
  intros Hd s (Hp & Hr & Hpl & Hsc). unfold pyro_sample. rewrite Hr. simpl.
  destruct (sample_shape d (plates s)) as [sh|] eqn:Hsh; [|done].
  unfold mbind, M_bind, bind, add_node. case_decide; [done|]. simpl.
  repeat split; try done. apply scalar_sites_snoc; [done|]. simpl.
  intros _ Hfam. unfold sample_shape in Hsh. rewrite (Hd Hfam), Hpl in Hsh.
  simpl in Hsh. injection Hsh as <-. by eexists.
Qed.

Lemma gv_plate hp n size :
  ¬ scalar_family n →
  hoare (guide_values hp) (pyro_plate n size)
        (λ _ s, guide_values hp s) (λ _ _, True).
Proof.
  intros Hn s (Hp & Hr & Hpl & Hsc). unfold pyro_plate.
  unfold mbind, M_bind, bind, add_node. case_decide; [done|]. simpl.
  case_decide; [done|]. simpl. repeat split; try done.
  apply scalar_sites_snoc; [done|]. simpl. done.
Qed.

Lemma gv_iter hp (rs : list (rating num)) :
  hoare (guide_values hp) (iter_ratings rs) (λ _ s, guide_values hp s) (λ _ _, True).
Proof. intros s (Hp & Hr & Hpl & Hsc). done. Qed.

Lemma gv_next hp :
  hoare (guide_values hp) next_rating (λ _ s, guide_values hp s) (λ _ _, True).
Proof.
  intros s (Hp & Hr & Hpl & Hsc). unfold next_rating.
  destruct (ratings_itr s) as [[|r rest]|]; done.
Qed.

Lemma hoare_for_plate_const {A} (I : state num → Prop) E n size
    (body : nat → A → M num A) acc :
  hoare I (pyro_plate n size) (λ _, I) E →
  (∀ j a, hoare I (body j a) (λ _, I) E) →
  hoare I (for_plate n size body acc) (λ _, I) E.
Proof.
  intros Hp Hb. apply (hoare_for_plate (λ _ _, I)); [done|]. intros j a _. apply Hb.
Qed.

Ltac g_param :=
  eapply hoare_bind;
    [apply gv_param; reflexivity | intros ?; apply hoare_pure; intros ->].

Ltac g_sample :=
  eapply hoare_bind;
    [apply gv_sample; first [ by intros _ | by intros [?|?] ] | intros ?].

Ltac g_loop :=
  apply hoare_for_plate_const; [apply gv_plate; by intros [?|?] | intros ? ?].

Lemma guide_scalar self hp (rs : list (rating num)) extra :
  MMPF.hyperparams self = Some hp →
  hoare (guide_values hp) (MMPF._guide rnd self rs extra)
        (λ _ s, guide_values hp s) (λ _ _, True).
Proof.
  intros Hself. unfold MMPF._guide.
  destruct extra as [|? [|? ?]]; [| |done]; rewrite Hself; apply hoare_bind_ret.
  all: g_param; g_param; g_sample; g_sample.
  all: eapply hoare_bind; [g_loop; g_loop; g_param; g_param; g_sample; by apply hoare_ret|intros ?].
  all: eapply hoare_bind; [g_loop; g_loop; g_param; g_param; g_sample; by apply hoare_ret|intros ?].
  all: eapply hoare_bind;
    [g_loop; g_param; g_param; cbv zeta; g_sample; g_loop; g_param; g_param; cbv zeta;
     g_sample; by apply hoare_ret|intros ?].
  all: eapply hoare_bind;
    [g_loop; g_param; g_param; cbv zeta; g_sample; g_loop; g_param; g_param; cbv zeta;
     g_sample; by apply hoare_ret|intros ?].
  all: eapply hoare_bind; [apply gv_iter|intros ?].
  all: g_loop; eapply hoare_bind; [apply gv_next|intros [[? ?] ?]].
  all: g_param; g_param; g_sample; g_sample; by apply hoare_ret.
Qed.

(** *** Model *)

Lemma mv_sample R n d :
  n.1 ≠ "obs_rating_{},{}" →
  scalar_sites R →
  hoare (model_values R) (pyro_sample rnd n d)
        (λ v s, (scalar_family n → draw_shape d = Some S0 → ∃ x, v = T0 x) ∧
                model_values R s)
        (λ _ s, model_values R s).
Proof.
  intros Hn HR s (Hr & Hpl & Hno). unfold pyro_sample. rewrite Hr.
  destruct (replay_value n R) as [v|] eqn:Hv.
  - unfold mbind, M_bind, bind, add_node. case_decide; [done|]. simpl.
    split.
    + intros Hfam _. apply replay_value_elem in Hv as (st & Hin & <- & Hobs & <-).
      by apply HR.
    + repeat split; try done. by apply no_obs_snoc.
  - destruct (sample_shape d (plates s)) as [sh|] eqn:Hsh; [|done].
    unfold mbind, M_bind, bind, add_node. case_decide; [done|]. simpl.
    split.
    + intros _ Hd. unfold sample_shape in Hsh. rewrite Hd, Hpl in Hsh.
      simpl in Hsh. injection Hsh as <-. by eexists.
    + repeat split; try done. by apply no_obs_snoc.
Qed.

Lemma mv_sample' R n d :
  n.1 ≠ "obs_rating_{},{}" →
  scalar_sites R →
  hoare (model_values R) (pyro_sample rnd n d)
        (λ _ s, model_values R s) (λ _ s, model_values R s).
Proof.
  intros Hn HR. eapply hoare_conseq; [by apply mv_sample|done| |done]. by intros v s [_ ?].
Qed.

Lemma mv_plate R n size :
  n.1 ≠ "obs_rating_{},{}" →
  hoare (model_values R) (pyro_plate n size)
        (λ _ s, size ≠ 0 ∧ model_values R s) (λ _ s, model_values R s).
Proof.
  intros Hn s (Hr & Hpl & Hno). unfold pyro_plate.
  unfold mbind, M_bind, bind, add_node. case_decide; [done|]. simpl.
  assert (no_obs (trace s ++ [Site n (Subsample size)
            (default (arange size) (replay_value n (replayed s))) false])) as Hno'.
  { by apply no_obs_snoc. }
  case_decide; simpl; done.
Qed.

Lemma mv_plate' R n size :
  n.1 ≠ "obs_rating_{},{}" →
  hoare (model_values R) (pyro_plate n size)
        (λ _ s, model_values R s) (λ _ s, model_values R s).
Proof.
  intros Hn. eapply hoare_conseq; [by apply mv_plate|done| |done]. by intros v s [_ ?].
Qed.

Lemma mv_iter (R : list (site num)) (rs : list (rating num)) :
  hoare (model_values R) (iter_ratings rs)
        (λ _ s, model_values R s) (λ _ s, model_values R s).
Proof. intros s (Hr & Hpl & Hno). done. Qed.

Lemma mv_next (R : list (site num)) :
  hoare (model_values R) next_rating
        (λ _ s, model_values R s) (λ _ s, model_values R s).
Proof.
  intros s (Hr & Hpl & Hno). unfold next_rating.
  destruct (ratings_itr s) as [[|r rest]|]; done.
Qed.

(** The rate cannot be computed from a scalar, or unbound, [user_latents]. *)
Lemma mv_rate R ul il ucl icl user item (z_u z_i : tensor num) :
  unbound_or_scalar ul →
  hoare (model_values R) (MMPF.rate ul il ucl icl user item z_u z_i)
        (λ _ _, False) (λ _ s, model_values R s).
Proof.
  intros Hul s Hs. unfold MMPF.rate.
  destruct ul as [t|]; [destruct Hul as [v ->]|]; done.
Qed.

Ltac m_sample :=
  eapply hoare_bind; [apply mv_sample'; done | intros ?].

Ltac m_loop :=
  apply hoare_for_plate_const; [by apply mv_plate' | intros ? ?].

Lemma model_never_returns self R (rs : list (rating num)) extra :
  scalar_sites R →
  hoare (model_values R) (MMPF._model rnd self rs extra)
        (λ _ _, False) (λ _ s, model_values R s).
Proof.
  intros HR. unfold MMPF._model. destruct extra; [|by intros s Hs].
  destruct (MMPF.hyperparams self) as [hp|]; [|by intros s Hs].
  apply hoare_bind_ret. cbv zeta.
  m_sample. m_sample.
  eapply hoare_bind; [m_loop; m_loop; m_sample; by apply hoare_ret|intros ?].
  eapply hoare_bind; [m_loop; m_loop; m_sample; by apply hoare_ret|intros ?].
  eapply hoare_bind.
  { apply (hoare_for_plate (λ _ acc s, unbound_or_scalar acc ∧ model_values R s)).
    - eapply hoare_conseq; [by apply (mv_plate' R)|done| |done]. by intros [] s Hs.
    - intros u acc _. apply hoare_pure. intros Hacc.
      eapply hoare_bind; [by apply mv_sample|].
      intros user_mean. apply hoare_pure. intros Hmean.
      destruct Hmean as [x ->]; [by left|reflexivity|].
      apply (hoare_for_plate (λ _ acc s, unbound_or_scalar acc ∧ model_values R s)).
      + eapply hoare_conseq; [by apply (mv_plate' R)|done| |done]. by intros [] s Hs.
      + intros k acc' _. apply hoare_pure. intros Hacc'.
        eapply hoare_bind; [by apply mv_sample|].
        intros y. apply hoare_pure. intros Hy. apply hoare_ret.
        intros s Hs. split; [|done]. apply Hy; [by right|reflexivity]. }
  intros user_latents. apply hoare_pure. intros Hul.
  eapply hoare_bind; [m_loop; m_sample; m_loop; m_sample; by apply hoare_ret|intros ?].
  eapply hoare_bind; [apply mv_iter|intros ?].
  eapply hoare_conseq with
    (Q' := λ _ s, num_nonmissing hp ≠ 0 ∧ num_nonmissing hp = 0 ∧ model_values R s)
    (E' := λ _ s, model_values R s) (P' := model_values R);
    [|done|by intros [] s (? & ? & _)|done].
  apply (hoare_for_plate (λ j (_ : ()) s, num_nonmissing hp ≠ 0 ∧ j = 0 ∧ model_values R s)).
  - eapply hoare_conseq; [by apply (mv_plate R)|done| |done]. intros [] s [? ?]. done.
  - intros j [] _. apply hoare_pure. intros _. apply hoare_pure. intros ->.
    eapply hoare_bind; [apply mv_next|intros [[user item] rating]].
    m_sample. m_sample.
    eapply hoare_bind; [by apply mv_rate|]. by intros ? s [].
Qed.

(** One step of SVI on an MMPF object never returns: the model raises
    whenever the guide has not. *)
Lemma MMPF_step_raises loss_and_grads self (rs : list (rating num)) extra k w :
  (∀ hp, MMPF.hyperparams self = Some hp → pristine hp w) →
  ∃ w' e,
    svi_step loss_and_grads (MMPF._model rnd self) (MMPF._guide rnd self) k rs extra w
    = (w', Raises e).
Proof.
  intros Hw. unfold svi_step.
  destruct (MMPF._guide rnd self rs extra (fresh_run k w [])) as [[] s|e s] eqn:Hg;
    [|by eexists _, _].
  assert (scalar_sites (trace s)) as Hsc.
  { destruct (MMPF.hyperparams self) as [hp|] eqn:Hself.
    - pose proof (guide_scalar self hp rs extra Hself (fresh_run k w [])) as Hrun.
      rewrite Hg in Hrun. apply Hrun. repeat split; try done; [by apply Hw|].
      intros st Hst. by apply elem_of_nil in Hst.
    - unfold MMPF._guide in Hg. rewrite Hself in Hg.
      destruct extra as [|? [|? ?]]; discriminate Hg. }
  pose proof (model_never_returns self (trace s) rs extra Hsc
                (fresh_run k (store s) (trace s))) as Hm.
  destruct (MMPF._model rnd self rs extra (fresh_run k (store s) (trace s))) as [[] s'|e s'].
  - exfalso. apply Hm. repeat split; try done. intros st Hst. by apply elem_of_nil in Hst.
  - by eexists _, _.
Qed.

(** [MMPF.fit] with a budget of at least one step never returns: its
    first step raises and no loss is recorded. *)
Lemma MMPF_fit_always_raises loss_and_grads self (rs : list (rating num)) num_steps w :
  (∀ hp, MMPF.hyperparams self = Some hp → pristine hp w) →
  0 < num_steps →
  ∃ w' e, MMPF.fit_train rnd loss_and_grads self rs num_steps w = (w', [], Some e) ∧
          MMPF.fit rnd loss_and_grads self rs num_steps w = (w', Raises e).
Proof.
  intros Hw Hn. destruct num_steps as [|n]; [lia|].
  destruct (MMPF_step_raises loss_and_grads self rs [] 0 w Hw) as (w' & e & Hstep).
  exists w', e. unfold MMPF.fit, MMPF.fit_train. simpl. rewrite Hstep. done.
Qed.

(** No run of the model that replays a guide run scores a rating. *)
Lemma MMPF_model_scores_nothing self (rs : list (rating num)) extra k w :
  (∀ hp, MMPF.hyperparams self = Some hp → pristine hp w) →
  ∀ s, MMPF._guide rnd self rs extra (fresh_run k w []) = Ok () s →
  ∃ e s', MMPF._model rnd self rs extra (fresh_run k (store s) (trace s)) = Raise e s' ∧
          no_obs (trace s').
Proof.
  intros Hw s Hg.
  assert (scalar_sites (trace s)) as Hsc.
  { destruct (MMPF.hyperparams self) as [hp|] eqn:Hself.
    - pose proof (guide_scalar self hp rs extra Hself (fresh_run k w [])) as Hrun.
      rewrite Hg in Hrun. apply Hrun. repeat split; try done; [by apply Hw|].
      intros st Hst. by apply elem_of_nil in Hst.
    - unfold MMPF._guide in Hg. rewrite Hself in Hg.
      destruct extra as [|? [|? ?]]; discriminate Hg. }
  pose proof (model_never_returns self (trace s) rs extra Hsc
                (fresh_run k (store s) (trace s))) as Hm.
  destruct (MMPF._model rnd self rs extra (fresh_run k (store s) (trace s))) as [[] s'|e s'].
  - exfalso. apply Hm. repeat split; try done. intros st Hst. by apply elem_of_nil in Hst.
  - exists e, s'. split; [done|]. apply Hm. repeat split; try done.
    intros st Hst. by apply elem_of_nil in Hst.
Qed.

End ValuePass.

(** ** The claims that the code breaks, at their failing inputs *)

Ltac no_such_site Hin :=
  repeat (apply elem_of_cons in Hin as [Hin|Hin]; [discriminate Hin|]);
  by apply elem_of_nil in Hin.

(** C1 at its failing input.  On the scenario for which five steps are to
    return five losses, [MMPF.fit] raises the [IndexError] of line 146 in
    its first step and returns no loss sequence, whatever the random
    draws and the loss estimator are.  This is no accident of the
    scenario: on a fresh parameter store no call of [MMPF.fit] with a
    budget of at least one step returns, and no such call of [BPF.fit]
    does on any store. *)
Theorem fit_scenario_raises :
  (∀ rnd loss_and_grads,
     (MMPF.fit rnd loss_and_grads (MMPF.New (Some scenario_hp)) scenario_ratings 5 ∅).2
     = Raises IndexError ∧
     returned_losses
       (MMPF.fit rnd loss_and_grads (MMPF.New (Some scenario_hp)) scenario_ratings 5 ∅)
     = None) ∧
  (∀ num (N : Numeric num) rnd loss_and_grads self (ratings : list (rating num)) n,
     ∃ w' e, MMPF.fit rnd loss_and_grads self ratings (S n) ∅ = (w', Raises e)) ∧
  (∀ num (N : Numeric num) rnd loss_and_grads self (ratings : list (rating num))
     hyperparams n w,
     ∃ self' w' e,
       BPF.fit rnd loss_and_grads self ratings hyperparams (S n) w
       = (self', (w', Raises e))).
Proof.
  split; [|split].
  - intros rnd lg. split; vm_compute; reflexivity.
  - intros num N rnd lg self ratings n.
    destruct (MMPF_fit_always_raises rnd lg self ratings (S n) ∅) as (w' & e & _ & Hfit).
    + intros hp _. apply pristine_empty.
    + lia.
    + by exists w', e.
  - intros num N rnd lg self ratings hyperparams n w. unfold BPF.fit.
    destruct (BPF.fit_hyperparams self hyperparams) as [[self' h]|e]; [|by eexists _, _, _].
    destruct (BPF_step_raises rnd lg self' ratings h 0 w) as (w' & e & Hstep).
    exists self', w', e. unfold BPF.fit_train. simpl. rewrite Hstep. done.
Qed.

(** C2 at its failing input.  When the rating loop of the model starts,
    [user_latents] holds the scalar drawn last, so [user_latents[:, user]]
    raises an [IndexError] whatever the rating and the other locals are;
    on the scenario the model stops there, at the first rating, and no
    [obs_rating] site is ever scored.  Nor is one in any other model run
    of a step on a fresh store: when the guide returns, the model raises
    without having scored a rating. *)
Theorem MMPF_rate_on_scalar_latents :
  (∀ num (N : Numeric num) (x : num) item_latents user_context_latents
     item_context_latents user item z_u z_i s,
     MMPF.rate (Some (T0 x)) item_latents user_context_latents item_context_latents
       user item z_u z_i s = Raise IndexError s) ∧
  (∀ rnd,
     raised (scenario_model rnd) = Some IndexError ∧
     (∀ idx, ("obs_rating_{},{}", idx) ∉ names (trace (final (scenario_model rnd)))) ∧
     (site_value <$> last (filter (λ st, (site_name st).1 = "user_latents_{},{}")
                             (trace (final (scenario_model rnd)))))
     = Some (T0 (rnd 0 ("user_latents_{},{}", [1; 0]) 0))) ∧
  (∀ num (N : Numeric num) rnd self (ratings : list (rating num)) k,
     match MMPF._guide rnd self ratings [] (fresh_run k ∅ []) with
     | Ok _ s =>
         ∃ e s', MMPF._model rnd self ratings [] (fresh_run k (store s) (trace s))
                 = Raise e s' ∧ no_obs (trace s')
     | Raise _ _ => True
     end).
Proof.
  split; [done|]. split.
  - intros rnd. split; [vm_compute; reflexivity|]. split.
    + intros idx Hin. vm_compute in Hin. no_such_site Hin.
    + vm_compute. reflexivity.
  - intros num N rnd self ratings k.
    destruct (MMPF._guide rnd self ratings [] (fresh_run k ∅ [])) as [[] s|e s] eqn:Hg;
      [|done].
    apply (MMPF_model_scores_nothing rnd self ratings [] k ∅); [|done].
    intros hp _. apply pristine_empty.
Qed.

(** C4 at its failing input.  With [num_nonmissing] = 2 the guide takes
    two ratings, the model that replays it takes one and raises, and the
    BPF model raises on its first line before an iterator exists; the
    BPF guide never creates one. *)
Theorem rating_loops_out_of_step :
  ∀ rnd,
  raised (scenario_guide rnd) = None ∧
  consumed scenario_ratings (final (scenario_guide rnd)) = 2 ∧
  raised (scenario_model rnd) = Some IndexError ∧
  consumed scenario_ratings (final (scenario_model rnd)) = 1 ∧
  (let b := BPF._model rnd (BPF.New (Some scenario_hp)) scenario_ratings []
              (fresh_run 0 ∅ []) in
   raised b = Some UnboundLocalError ∧ consumed scenario_ratings (final b) = 0) ∧
  ratings_itr (final (BPF._guide rnd (BPF.New (Some scenario_hp)) scenario_ratings
                        [Some scenario_hp] (fresh_run 0 ∅ []))) = None.
Proof. intros rnd. repeat split; vm_compute; reflexivity. Qed.

(** C8 at its failing input.  The first run of the MMPF guide creates
    [q_li1] for every item and latent with the value of [c_u], here 1,
    although [c_i] is 2 and the model draws the item latents from a
    Gamma with shape [c_i].  In general, whatever [q_li1] parameter the
    store holds when a guide run on a fresh store returns has the value
    of [c_u]. *)
Theorem MMPF_q_li1_initialised_to_c_u :
  (∀ rnd,
     store (final (scenario_guide rnd)) !! ("q_li1_{},{}", [0; 0])
     = Some (T0 (c_u scenario_hp)) ∧
     store (final (scenario_guide rnd)) !! ("q_li1_{},{}", [1; 0])
     = Some (T0 (c_u scenario_hp)) ∧
     c_u scenario_hp ≠ c_i scenario_hp ∧
     dist_at ("item_latents_{},{}", [0; 0]) (trace (final (scenario_model rnd)))
     = Some (Gamma (T0 (c_i scenario_hp)) (T0 (rnd 0 ("item_mean_{}", [0]) 0)))) ∧
  (∀ num (N : Numeric num) rnd (hp : hyper num) (ratings : list (rating num)) k,
     match MMPF._guide rnd (MMPF.New (Some hp)) ratings [] (fresh_run k ∅ []) with
     | Ok _ s =>
         ∀ i l, default (T0 (c_u hp)) (store s !! ("q_li1_{},{}", [i; l])) = T0 (c_u hp)
     | Raise _ _ => True
     end).
Proof.
  split.
  - intros rnd. repeat split; vm_compute; congruence.
  - intros num N rnd hp ratings k.
    pose proof (guide_scalar rnd (MMPF.New (Some hp)) hp ratings [] eq_refl
                  (fresh_run k ∅ [])) as Hrun.
    destruct (MMPF._guide rnd (MMPF.New (Some hp)) ratings [] (fresh_run k ∅ []))
      as [[] s|e s]; [|done].
    destruct Hrun as (Hp & _).
    { split; [apply pristine_empty|]. repeat split.
      intros st Hst. by apply elem_of_nil in Hst. }
    intros i l. destruct (store s !! ("q_li1_{},{}", [i; l])) as [v|] eqn:Hv; [|done].
    simpl. apply Hp in Hv. by injection Hv as <-.
Qed.

Lemma BPF_fit_never_completes_a_step_witness :
  (∀ h s, BPF._model scenario_rnd (BPF.New (Some scenario_hp)) scenario_ratings [h] s
          = Raise TypeError s) ∧
  (∀ s, BPF._model scenario_rnd (BPF.New (Some scenario_hp)) scenario_ratings [] s
        = Raise UnboundLocalError s) ∧
  match BPF.fit_hyperparams (BPF.New (Some scenario_hp)) (Some scenario_hp) with
  | Raises e =>
      BPF.fit scenario_rnd scenario_loss (BPF.New (Some scenario_hp)) scenario_ratings
        (Some scenario_hp) 1 ∅ = (BPF.New (Some scenario_hp), (∅, Raises e))
  | Returns (self', h) =>
      ∃ w' e,
        BPF.fit_train scenario_rnd scenario_loss self' scenario_ratings h 1 ∅
        = (w', [], Some e) ∧
        BPF.fit scenario_rnd scenario_loss (BPF.New (Some scenario_hp)) scenario_ratings
          (Some scenario_hp) 1 ∅ = (self', (w', Raises e))
  end.
Proof.
  apply (BPF_fit_never_completes_a_step scenario_rnd scenario_loss
           (BPF.New (Some scenario_hp)) scenario_ratings (Some scenario_hp) 1 ∅).
  lia.
Defined.

(** * Further properties of the two classes and of the script *)

Section MonotoneBPF.
Context {num : Type} `{Numeric num}.
Variable rnd : nat → name → nat → num.

Lemma monotone_push_plate size : monotone (push_plate (num:=num) size).
Proof. intros s. split; done. Qed.

Lemma monotone_pop_plate : monotone (pop_plate (num:=num)).
Proof. intros s. split; done. Qed.

Lemma monotone_with_plate {A} n size (body : M num A) :
  monotone body → monotone (with_plate n size body).
Proof.
  intros Hb. unfold with_plate.
  apply monotone_bind; [apply monotone_plate|intros _].
  apply monotone_bind; [apply monotone_push_plate|intros _].
  apply monotone_bind; [exact Hb|intros v].
  apply monotone_bind; [apply monotone_pop_plate|intros _].
  apply monotone_ret.
Qed.

Lemma monotone_BPF_guide self rs extra : monotone (BPF._guide rnd self rs extra).
Proof.
  unfold BPF._guide. destruct extra as [|? [|? ?]]; [| |apply monotone_raise]; mono.
Qed.

Lemma monotone_BPF_model self rs extra : monotone (BPF._model rnd self rs extra).
Proof.
  unfold BPF._model. destruct extra; [|apply monotone_raise].
  apply monotone_bind; [apply monotone_read_local|intros h].
  apply monotone_bind; [apply monotone_subscriptable|intros hp]. cbv zeta.
  repeat first
    [ apply monotone_with_plate
    | apply monotone_bind; [|intros ?]
    | apply monotone_sample | apply monotone_iter | apply monotone_next
    | apply monotone_lift | apply monotone_observe | apply monotone_ret
    | match goal with |- monotone (let '(_, _) := ?x in _) => destruct x end ].
Qed.

(** X1. A run of the guide or of the model of either class, from any
    state and whether it returns or raises, only appends sites to the
    trace and only adds parameters to the store: whatever parameter the
    store holds when the run starts, it still holds, with the same value,
    when the run ends. *)
Theorem runs_only_extend (s : state num) (rs : list (rating num)) extra :
  (∀ self, extends s (final (MMPF._guide rnd self rs extra s)) ∧
           extends s (final (MMPF._model rnd self rs extra s))) ∧
  (∀ self, extends s (final (BPF._guide rnd self rs extra s)) ∧
           extends s (final (BPF._model rnd self rs extra s))) ∧
  (∀ self self' n v, store s !! n = Some v →
     store (final (MMPF._guide rnd self rs extra s)) !! n = Some v ∧
     store (final (BPF._guide rnd self' rs extra s)) !! n = Some v).
Proof.
  split; [|split].
  - intros self. split; [apply monotone_guide|apply monotone_model].
  - intros self. split; [apply monotone_BPF_guide|apply monotone_BPF_model].
  - intros self self' n v Hn. split.
    + eapply lookup_weaken; [exact Hn|]. apply monotone_guide.
    + eapply lookup_weaken; [exact Hn|]. apply monotone_BPF_guide.
Qed.

End MonotoneBPF.

Section FitEdges.
Context {num : Type} `{Numeric num}.
Variable rnd : nat → name → nat → num.
Variable loss_and_grads :
  nat → list (site num) → list (site num) → gmap name (tensor num) →
  result (num * gmap name (tensor num)).

(** X2. Missing hyperparameters, empty budgets.  [BPF.fit] on an object
    without hyperparameters and with [hyperparams=None] raises the
    [ValueError] of line 88 whatever the budget, zero included, and
    leaves object and store as they are; with a [hyperparams] argument it
    drops the argument (line 92) and its first step raises a [TypeError]
    on the subscript of [None].  [MMPF.fit] has no check: without
    hyperparameters it raises that [TypeError] in its first step.  With
    [num_steps = 0] both methods return the empty list, run neither model
    nor guide and leave the store alone, whatever the object holds. *)
Theorem fit_without_hyperparameters (rs : list (rating num)) (w : gmap name (tensor num)) :
  (∀ n, BPF.fit rnd loss_and_grads (BPF.New None) rs None n w
        = (BPF.New None, (w, Raises ValueError))) ∧
  (∀ h n, BPF.fit rnd loss_and_grads (BPF.New None) rs (Some h) (S n) w
          = (BPF.New None, (w, Raises TypeError))) ∧
  (∀ n, MMPF.fit rnd loss_and_grads (MMPF.New None) rs (S n) w = (w, Raises TypeError)) ∧
  (∀ self, MMPF.fit rnd loss_and_grads self rs 0 w = (w, Returns [])) ∧
  (∀ self h, BPF.fit rnd loss_and_grads self rs (Some h) 0 w = (self, (w, Returns []))).
Proof. repeat split; reflexivity. Qed.

End FitEdges.

Section Preserves.
Context {num : Type} `{Numeric num}.
Variable rnd : nat → name → nat → num.
Variable I : gmap name (tensor num) → Prop.

Lemma preserves_ret {A} (v : A) : preserves I (mret v : M num A).
Proof. by intros s. Qed.

Lemma preserves_raise {A} e : preserves I (raise e : M num A).
Proof. by intros s. Qed.

Lemma preserves_bind {A B} (m : M num A) (k : A → M num B) :
  preserves I m → (∀ v, preserves I (k v)) → preserves I (m ≫= k).
Proof.
  intros Hm Hk s Hs. unfold mbind, M_bind, bind. specialize (Hm s Hs).
  destruct (m s) as [v s'|e s']; simpl in *; [by apply Hk|done].
Qed.


Lemma preserves_lift {A} (r : result A) : preserves I (lift r : M num A).
Proof. destruct r; [apply preserves_ret|apply preserves_raise]. Qed.

Lemma preserves_read_local {A} (x : option A) : preserves I (read_local x : M num A).
Proof. destruct x; [apply preserves_ret|apply preserves_raise]. Qed.

Lemma preserves_subscriptable (h : option (hyper num)) : preserves I (subscriptable h).
Proof. destruct h; [apply preserves_ret|apply preserves_raise]. Qed.

Lemma preserves_add_node (st : site num) : preserves I (add_node st).
Proof. intros s Hs. unfold add_node. by case_decide. Qed.

Lemma preserves_sample n d : preserves I (pyro_sample rnd n d).
Proof.
  intros s Hs. unfold pyro_sample.
  destruct (replay_value n (replayed s)).
  - by apply (preserves_bind (add_node _) (λ _, mret _));
      [apply preserves_add_node|intros; apply preserves_ret|].
  - destruct (sample_shape d (plates s)); [|done].
    by apply (preserves_bind (add_node _) (λ _, mret _));
      [apply preserves_add_node|intros; apply preserves_ret|].
Qed.

Lemma preserves_observe n d (obs : tensor num) : preserves I (pyro_observe n d obs).
Proof. apply preserves_add_node. Qed.

Lemma preserves_plate n size : preserves I (pyro_plate (num:=num) n size).
Proof.
  unfold pyro_plate. apply preserves_bind.
  - intros s. apply preserves_add_node.
  - intros _. case_decide; [apply preserves_raise|apply preserves_ret].
Qed.

Lemma preserves_for_range {A} (body : nat → A → M num A) n : ∀ start acc,
  (∀ j a, preserves I (body j a)) → preserves I (for_range start n body acc).
Proof.
  induction n as [|n IH]; intros start acc Hb; simpl.
  - apply preserves_ret.
  - apply preserves_bind; [apply Hb|]. intros a. by apply IH.
Qed.

Lemma preserves_for_plate {A} n size (body : nat → A → M num A) acc :
  (∀ j a, preserves I (body j a)) → preserves I (for_plate n size body acc).
Proof.
  intros Hb. unfold for_plate. apply preserves_bind; [apply preserves_plate|].
  intros _. by apply preserves_for_range.
Qed.

Lemma preserves_with_plate {A} n size (body : M num A) :
  preserves I body → preserves I (with_plate n size body).
Proof.
  intros Hb. unfold with_plate.
  apply preserves_bind; [apply preserves_plate|intros _].
  apply preserves_bind; [by intros s|intros _].
  apply preserves_bind; [exact Hb|intros v].
  apply preserves_bind; [by intros s|intros _].
  apply preserves_ret.
Qed.

Lemma preserves_iter (rs : list (rating num)) : preserves I (iter_ratings rs).
Proof. by intros s. Qed.

Lemma preserves_next : preserves I (next_rating (num:=num)).
Proof.
  intros s Hs. unfold next_rating.
  by destruct (ratings_itr s) as [[|r rest]|].
Qed.

End Preserves.

Lemma preserves_param_pristine {num} `{Numeric num} (hp : hyper num) n (init : tensor num) :
  init_of hp n = Some init → preserves (pristine hp) (pyro_param n init).
Proof.
  intros Hinit s Hs.
  destruct (param_returns_init hp n init s Hs Hinit) as (w' & -> & Hw' & _). done.
Qed.

Ltac pres :=
  repeat first
    [ apply preserves_ret | apply preserves_raise | apply preserves_lift
    | apply preserves_read_local | apply preserves_subscriptable
    | apply preserves_sample | apply preserves_observe
    | apply preserves_param_pristine; reflexivity
    | apply preserves_iter | apply preserves_next
    | apply preserves_for_plate; intros ? ?
    | apply preserves_with_plate
    | apply preserves_bind; [|intros ?]
    | match goal with
      | |- preserves _ (let '(_, _) := ?x in _) => destruct x
      end
    | progress cbv zeta ].

Section StoreOfRuns.
Context {num : Type} `{Numeric num}.
Variable rnd : nat → name → nat → num.
Variable loss_and_grads :
  nat → list (site num) → list (site num) → gmap name (tensor num) →
  result (num * gmap name (tensor num)).

Lemma preserves_rate I ul il ucl icl user item (z_u z_i : tensor num) :
  preserves I (MMPF.rate ul il ucl icl user item z_u z_i).
Proof. unfold MMPF.rate. pres. Qed.

Lemma preserves_MMPF_model I self rs extra : preserves I (MMPF._model rnd self rs extra).
Proof.
  unfold MMPF._model. destruct extra; [|apply preserves_raise].
  pres.
Qed.

Lemma preserves_BPF_model I self rs extra : preserves I (BPF._model rnd self rs extra).
Proof.
  unfold BPF._model. destruct extra; [|apply preserves_raise]. pres.
Qed.


(** X3. Neither model creates or changes a parameter: the store at the
    end of a run of [MMPF._model] or of [BPF._model] is the store at its
    start, whatever the arguments and whether the run returns or
    raises. *)
Theorem models_keep_the_store (s : state num) (rs : list (rating num)) extra :
  (∀ self, store (final (MMPF._model rnd self rs extra s)) = store s) ∧
  (∀ self, store (final (BPF._model rnd self rs extra s)) = store s).
Proof.
  split; intros self.
  - by apply (preserves_MMPF_model (λ w, w = store s)).
  - by apply (preserves_BPF_model (λ w, w = store s)).
Qed.




End StoreOfRuns.

(** ** The BPF guide *)

Section BPFGuide.
Context {num : Type} `{Numeric num}.
Variable rnd : nat → name → nat → num.
Variable loss_and_grads :
  nat → list (site num) → list (site num) → gmap name (tensor num) →
  result (num * gmap name (tensor num)).








End BPFGuide.

Section ModelRun.
Context {num : Type} `{Numeric num}.
Variable rnd : nat → name → nat → num.

Lemma minv_add (w : gmap name (tensor num)) R r r' ex ex' itr (st : site num) s :
  minv w R r ex itr s →
  (lt3 (pos (site_name st)) r' ∨ site_name st ∈ ex') →
  le3 r r' →
  (∀ n, n ∈ ex → n ∈ ex') →
  minv w R r' ex' itr (State (store s) (trace s ++ [st]) (replayed s) (plates s)
                             (ratings_itr s) (run_id s)).
Proof.
  intros [Hn Hw Hpl Hr Hi] Hst Hrr Hex. constructor; simpl; try done.
  intros n. unfold names. rewrite fmap_app, elem_of_app. simpl.
  rewrite list_elem_of_singleton. intros [Hin| ->]; [|done].
  destruct (Hn n Hin); [left|right]; eauto using lt3_le3_trans.
Qed.

Lemma minv_fresh (w : gmap name (tensor num)) R r ex itr n s :
  minv w R r ex itr s → ¬ lt3 (pos n) r → n ∉ ex → n ∉ names (trace s).
Proof. intros [Hn _ _ _ _] Hr Hex Hin. destruct (Hn n Hin); done. Qed.

Lemma minv_weaken (w : gmap name (tensor num)) R r r' ex ex' itr s :
  minv w R r ex itr s → le3 r r' → (∀ n, n ∈ ex → n ∈ ex') →
  minv w R r' ex' itr s.
Proof.
  intros [Hn Hw Hpl Hr Hi] Hrr Hex. constructor; try done.
  intros n Hin. destruct (Hn n Hin); [left|right]; eauto using lt3_le3_trans.
Qed.

(** A sample statement of the model: it cannot fail at a new name; it
    returns the replayed value if there is one, and a scalar where a
    scalar is drawn or replayed. *)
Lemma hoare_m_sample (w : gmap name (tensor num)) R r r' ex ex' itr n d E :
  scalar_sites R →
  (replay_value n R = None → is_Some (draw_shape d)) →
  ¬ lt3 (pos n) r → n ∉ ex →
  (lt3 (pos n) r' ∨ n ∈ ex') →
  le3 r r' →
  (∀ m, m ∈ ex → m ∈ ex') →
  hoare (minv w R r ex itr) (pyro_sample rnd n d)
    (λ v s, (scalar_family n → draw_shape d = Some S0 → ∃ x, v = T0 x) ∧
            (∀ v', replay_value n R = Some v' → v = v') ∧
            minv w R r' ex' itr s) E.
Proof.
  intros HR Hsh Hr Hex Hn' Hrr Hee s Hs. unfold pyro_sample.
  rewrite (mi_replayed _ _ _ _ _ _ Hs).
  destruct (replay_value n R) as [v|] eqn:Hv.
  - unfold mbind, M_bind, bind. rewrite add_node_fresh; [|by eapply minv_fresh].
    simpl. split; [|split].
    + intros Hfam _. apply replay_value_elem in Hv as (st & Hin & <- & Hobs & <-).
      by apply HR.
    + by intros v' [= <-].
    + eapply minv_add; eauto.
  - destruct (Hsh eq_refl) as [sh Hd].
    unfold sample_shape. rewrite Hd, (mi_plates _ _ _ _ _ _ Hs). simpl.
    rewrite broadcast_S0_r.
    unfold mbind, M_bind, bind. rewrite add_node_fresh; [|by eapply minv_fresh].
    simpl. split; [|split].
    + intros _ Hd'. assert (sh = S0) as -> by congruence. by eexists.
    + done.
    + eapply minv_add; eauto.
Qed.

Lemma hoare_m_plate (w : gmap name (tensor num)) R r r' ex itr n size E :
  size ≠ 0 →
  ¬ lt3 (pos n) r → n ∉ ex →
  lt3 (pos n) r' →
  le3 r r' →
  hoare (minv w R r ex itr) (pyro_plate n size) (λ _, minv w R r' ex itr) E.
Proof.
  intros Hsz Hr Hex Hn' Hrr s Hs. unfold pyro_plate.
  unfold mbind, M_bind, bind. rewrite add_node_fresh; [|by eapply minv_fresh].
  rewrite decide_False by done. simpl. eapply minv_add; eauto.
Qed.

Lemma hoare_m_next (w : gmap name (tensor num)) R r ex (rs : list (rating num)) x rest E :
  rs = x :: rest →
  hoare (minv w R r ex (Some rs)) next_rating
    (λ y s, y = x ∧ minv w R r ex (Some rest) s) E.
Proof.
  intros -> s Hs. unfold next_rating. rewrite (mi_itr _ _ _ _ _ _ Hs).
  split; [done|]. destruct Hs. by constructor.
Qed.

Lemma hoare_m_iter (w : gmap name (tensor num)) R r ex itr (rs : list (rating num)) E :
  hoare (minv w R r ex itr) (iter_ratings rs) (λ _, minv w R r ex (Some rs)) E.
Proof. intros s Hs. unfold iter_ratings. destruct Hs. by constructor. Qed.

End ModelRun.

(** ** A run of the MMPF model that replays a guide run *)

Section ModelSpec.
Context {num : Type} `{Numeric num}.
Variable rnd : nat → name → nat → num.
Variable hp : hyper num.
Hypothesis Hvalid : valid hp.
Variable w : gmap name (tensor num).
Variable R : list (site num).
Hypothesis HR : scalar_sites R.

Ltac side :=
  first [ by eexists | by intros _; eexists | rk | by apply not_elem_of_nil
        | (left; rk) | by auto ].

Ltac m_sample r' :=
  eapply hoare_bind;
    [apply (hoare_m_sample rnd w R _ r' [] []); first [ exact HR | side ] | intros ?].

Ltac m_plate := apply hoare_m_plate; first [ done | side ].

Ltac m_loop I :=
  eapply hoare_conseq; [apply (hoare_for_plate I) | done | | done];
    [ m_plate | | ].

Lemma model_user_contexts E :
  hoare (minv w R (1, 0, 0) [] None)
    (for_plate ("user_contexts", []) (num_contexts hp) (λ c acc,
        for_plate ("user_context_latents_{}", [c]) (num_context_latents hp) (λ v _,
          x ← pyro_sample rnd ("user_context_latents_{},{}", [c; v])
                (Gamma (T0 (a_c hp)) (T0 (b_c hp)));
          mret (Some x)) acc) None)
    (λ _, minv w R (2, 0, 0) [] None) E.
Proof.
  destruct Hvalid.
  m_loop (λ (c : nat) (_ : option (tensor num)), minv w R (1, S c, 0) [] None).
  - intros c acc Hc.
    m_loop (λ (v : nat) (_ : option (tensor num)), minv w R (1, S c, S v) [] None).
    + intros v acc' Hv. m_sample (1, S c, S (S v)).
      apply hoare_pure. intros _. apply hoare_pure. intros _. by apply hoare_ret.
    + intros ? ? Hs. cbv beta in Hs. eapply minv_weaken; [exact Hs | rk | done].
  - intros ? ? Hs. cbv beta in Hs. eapply minv_weaken; [exact Hs | rk | done].
Qed.

Lemma model_item_contexts E :
  hoare (minv w R (2, 0, 0) [] None)
    (for_plate ("item_contexts", []) (num_contexts hp) (λ c acc,
        for_plate ("item_context_latents_{}", [c]) (num_context_latents hp) (λ v _,
          x ← pyro_sample rnd ("item_context_latents_{},{}", [c; v])
                (Gamma (T0 (a_c hp)) (T0 (b_c hp)));
          mret (Some x)) acc) None)
    (λ _, minv w R (3, 0, 0) [] None) E.
Proof.
  destruct Hvalid.
  m_loop (λ (c : nat) (_ : option (tensor num)), minv w R (2, S c, 0) [] None).
  - intros c acc Hc.
    m_loop (λ (v : nat) (_ : option (tensor num)), minv w R (2, S c, S v) [] None).
    + intros v acc' Hv. m_sample (2, S c, S (S v)).
      apply hoare_pure. intros _. apply hoare_pure. intros _. by apply hoare_ret.
    + intros ? ? Hs. cbv beta in Hs. eapply minv_weaken; [exact Hs | rk | done].
  - intros ? ? Hs. cbv beta in Hs. eapply minv_weaken; [exact Hs | rk | done].
Qed.

(** After the users loop the local [user_latents] holds one scalar. *)
Lemma model_users E :
  hoare (minv w R (3, 0, 0) [] None)
    (for_plate ("users_loop", []) (num_users hp) (λ u acc,
        user_mean ← pyro_sample rnd ("user_mean_{}", [u]) (Gamma (T0 (a_u hp)) (T0 (b_u hp)));
        let user_latents_dist := Gamma (T0 (c_u hp)) user_mean in
        for_plate ("user_latents_loop_{}", [u]) (num_latents hp) (λ k _,
          x ← pyro_sample rnd ("user_latents_{},{}", [u; k]) user_latents_dist;
          mret (Some x)) acc) None)
    (λ user_latents s, (∃ x, user_latents = Some (T0 x)) ∧ minv w R (4, 0, 0) [] None s) E.
Proof.
  destruct Hvalid.
  eapply hoare_conseq;
    [apply (hoare_for_plate (λ (u : nat) (acc : option (tensor num)) s,
              bound_scalar u acc ∧ minv w R (3, S u, 0) [] None s))
    | done | | done].
  - eapply hoare_conseq; [apply (hoare_m_plate w R (3,0,0) (3,1,0) [] None); first [done|side]
                         |done| |done].
    intros [] s Hs. split; [by left|done].
  - intros u acc Hu. apply hoare_pure. intros _.
    m_sample (3, S u, 1).
    apply hoare_pure. intros Hmean. apply hoare_pure. intros _.
    destruct Hmean as [x ->]; [by left|reflexivity|]. cbv zeta.
    eapply hoare_conseq;
      [apply (hoare_for_plate (λ (k : nat) (acc' : option (tensor num)) s,
                bound_scalar k acc' ∧ minv w R (3, S u, S (S k)) [] None s))
      | done | | done].
    + eapply hoare_conseq;
        [apply (hoare_m_plate w R (3, S u, 1) (3, S u, 2) [] None); first [done|side]
        |done| |done].
      intros [] s Hs. split; [by left|done].
    + intros k acc' Hk. apply hoare_pure. intros _.
      m_sample (3, S u, S (S (S k))).
      apply hoare_pure. intros Hx. apply hoare_pure. intros _.
      destruct Hx as [y ->]; [by right|reflexivity|].
      apply hoare_ret. intros s Hs. split; [right; by eexists|done].
    + intros acc' s [[?|Hacc] Hs]; [done|]. split; [by right|].
      eapply minv_weaken; [eassumption | rk | done].
  - intros acc s [[?|Hacc] Hs]; [done|]. split; [done|].
    eapply minv_weaken; [eassumption | rk | done].
Qed.

Lemma model_items E :
  hoare (minv w R (4, 0, 0) [] None)
    (for_plate ("items_loop", []) (num_items hp) (λ i acc,
        item_mean ← pyro_sample rnd ("item_mean_{}", [i]) (Gamma (T0 (a_i hp)) (T0 (b_i hp)));
        let item_latents_dist := Gamma (T0 (c_i hp)) item_mean in
        for_plate ("item_latents_loop_{}", [i]) (num_latents hp) (λ k _,
          x ← pyro_sample rnd ("item_latents_{},{}", [i; k]) item_latents_dist;
          mret (Some x)) acc) None)
    (λ _, minv w R (5, 0, 0) [] None) E.
Proof.
  destruct Hvalid.
  m_loop (λ (i : nat) (_ : option (tensor num)), minv w R (4, S i, 0) [] None).
  - intros i acc Hi. m_sample (4, S i, 1).
    apply hoare_pure. intros _. apply hoare_pure. intros _. cbv zeta.
    m_loop (λ (k : nat) (_ : option (tensor num)), minv w R (4, S i, S (S k)) [] None).
    + intros k acc' Hk. m_sample (4, S i, S (S (S k))).
      apply hoare_pure. intros _. apply hoare_pure. intros _. by apply hoare_ret.
    + intros ? ? Hs. cbv beta in Hs. eapply minv_weaken; [exact Hs | rk | done].
  - intros ? ? Hs. cbv beta in Hs. eapply minv_weaken; [exact Hs | rk | done].
Qed.

(** The model on a non-empty ratings sequence: every statement up to the
    rate of the first rating succeeds, and the rate raises. *)
Lemma model_run (self : MMPF.obj) (rs : list (rating num)) u0 i0 x0 rest :
  MMPF.hyperparams self = Some hp →
  prob_sites R →
  rs = (u0, i0, x0) :: rest →
  hoare (minv w R (0, 0, 0) [] None) (MMPF._model rnd self rs [])
    (λ _ _, False)
    (λ e s, e = IndexError ∧
            minv w R (6, 0, 0)
              [("user_context_{},{}", [u0; i0]); ("item_context_{},{}", [u0; i0])]
              (Some rest) s).
Proof.
  intros Hself [[lu Hlu] [li Hli]] Hrs. pose proof Hvalid as [].
  unfold MMPF._model. rewrite Hself. apply hoare_bind_ret. cbv zeta.
  eapply hoare_bind.
  { apply (hoare_m_sample rnd w R (0,0,0) (0,1,0) [] []).
    - exact HR.
    - intros Hnone. by rewrite Hnone in Hlu.
    - rk.
    - apply not_elem_of_nil.
    - left. rk.
    - rk.
    - done. }
  intros user_context_prob. apply hoare_pure. intros _. apply hoare_pure. intros Hu.
  rewrite (Hu _ Hlu). clear Hu user_context_prob.
  eapply hoare_bind.
  { apply (hoare_m_sample rnd w R (0,1,0) (1,0,0) [] []).
    - exact HR.
    - intros Hnone. by rewrite Hnone in Hli.
    - rk.
    - apply not_elem_of_nil.
    - left. rk.
    - rk.
    - done. }
  intros item_context_prob. apply hoare_pure. intros _. apply hoare_pure. intros Hi.
  rewrite (Hi _ Hli). clear Hi item_context_prob.
  eapply hoare_bind; [apply model_user_contexts|intros user_context_latents].
  eapply hoare_bind; [apply model_item_contexts|intros item_context_latents].
  eapply hoare_bind; [apply model_users|intros user_latents].
  apply hoare_pure. intros [x ->].
  eapply hoare_bind; [apply model_items|intros item_latents].
  eapply hoare_bind; [apply hoare_m_iter|intros []].
  unfold for_plate.
  eapply hoare_bind.
  { apply (hoare_m_plate w R (5,0,0) (6,0,0) []); first [done|side]. }
  intros [].
  destruct (num_nonmissing hp) as [|N]; [done|]. simpl.
  eapply hoare_bind with (Q := λ _ _, False); [|by intros ? ? ?].
  eapply hoare_bind; [by apply (hoare_m_next w R (6,0,0) [] rs (u0, i0, x0) rest)|].
  intros ?. apply hoare_pure. intros ->.
  eapply hoare_bind.
  { apply (hoare_m_sample rnd w R (6,0,0) (6,0,0) []
             [("user_context_{},{}", [u0; i0])]).
    - exact HR.
    - intros _. by eexists.
    - rk.
    - apply not_elem_of_nil.
    - right. apply list_elem_of_singleton. done.
    - rk.
    - intros m Hm. by apply elem_of_nil in Hm. }
  intros z_u. apply hoare_pure. intros _. apply hoare_pure. intros _.
  eapply hoare_bind.
  { apply (hoare_m_sample rnd w R (6,0,0) (6,0,0)
             [("user_context_{},{}", [u0; i0])]
             [("user_context_{},{}", [u0; i0]); ("item_context_{},{}", [u0; i0])]).
    - exact HR.
    - intros _. by eexists.
    - rk.
    - rewrite list_elem_of_singleton. by intros [=].
    - right. rewrite !elem_of_cons. by right; left.
    - rk.
    - intros m Hm. apply list_elem_of_singleton in Hm as ->. apply elem_of_cons. by left. }
  intros z_i. apply hoare_pure. intros _. apply hoare_pure. intros _.
  eapply hoare_bind with (Q := λ _ _, False); [|by intros ? ? ?].
  intros s Hs. done.
Qed.

End ModelSpec.

(** ** The first step on a well-formed input *)

Section FirstStep.
Context {num : Type} `{Numeric num}.
Variable rnd : nat → name → nat → num.
Variable loss_and_grads :
  nat → list (site num) → list (site num) → gmap name (tensor num) →
  result (num * gmap name (tensor num)).

Lemma sample_fresh n d sh (s : state num) :
  replayed s = [] → n ∉ names (trace s) → sample_shape d (plates s) = Some sh →
  pyro_sample rnd n d s
  = Ok (fill sh (rnd (run_id s) n))
       (State (store s) (trace s ++ [Site n d (fill sh (rnd (run_id s) n)) false])
              (replayed s) (plates s) (ratings_itr s) (run_id s)).
Proof.
  intros Hr Hn Hsh. unfold pyro_sample.
  assert (replay_value n (replayed s) = None) as -> by by rewrite Hr.
  rewrite Hsh. unfold mbind, M_bind, bind. rewrite add_node_fresh by done. reflexivity.
Qed.

Lemma replay_value_prefix n (t t' : list (site num)) v :
  replay_value n t = Some v → t `prefix_of` t' → replay_value n t' = Some v.
Proof.
  intros Hv [rest ->]. unfold replay_value in *. rewrite filter_app.
  destruct (filter _ t); [done|]. done.
Qed.

Lemma replay_value_extends {A} n v (m : M num A) s :
  monotone m → replay_value n (trace s) = Some v →
  replay_value n (trace (final (m s))) = Some v.
Proof. intros Hm Hv. eapply replay_value_prefix; [exact Hv|]. apply Hm. Qed.

Lemma guide_prob_sites self hp (rs : list (rating num)) extra (s : state num) :
  MMPF.hyperparams self = Some hp → length extra ≤ 1 → pristine hp (store s) →
  trace s = [] → plates s = [] → replayed s = [] →
  prob_sites (trace (final (MMPF._guide rnd self rs extra s))).
Proof.
  intros Hself Hextra Hw Ht Hp Hr.
  assert (MMPF._guide rnd self rs extra = MMPF._guide rnd self rs []) as ->.
  { destruct extra as [|? [|? ?]]; try done. simpl in Hextra. lia. }
  unfold MMPF._guide. rewrite Hself.
  erewrite final_bind_ok; [|reflexivity].
  destruct (param_returns_init hp ("q_user_context_conc", []) (MMPF.q_context_conc_init hp) s)
    as (w1 & Hq1 & Hw1 & _); [done|reflexivity|].
  erewrite final_bind_ok; [|exact Hq1]. cbv beta.
  match type of Hq1 with _ = Ok _ ?s1 =>
    destruct (param_returns_init hp ("q_item_context_conc", [])
                (MMPF.q_context_conc_init hp) s1)
      as (w2 & Hq2 & Hw2 & _); [done|reflexivity|] end.
  erewrite final_bind_ok; [|exact Hq2]. cbv beta.
  erewrite final_bind_ok.
  2:{ apply (sample_fresh _ _ (S1 (num_context_latents hp))); simpl.
      - done.
      - rewrite Ht. apply not_elem_of_nil.
      - rewrite Hp. apply q_context_conc_draw. }
  cbv beta.
  erewrite final_bind_ok.
  2:{ apply (sample_fresh _ _ (S1 (num_context_latents hp))); simpl.
      - done.
      - rewrite Ht. simpl. rewrite elem_of_cons, elem_of_nil. intros [[=]|[]].
      - rewrite Hp. apply q_context_conc_draw. }
  cbv beta.
  split; eexists.
  - match goal with |- replay_value _ (trace (final (?m ?s4))) = _ =>
      apply (replay_value_extends _ _ m s4) end.
    + mono.
    + simpl. rewrite Ht. reflexivity.
  - match goal with |- replay_value _ (trace (final (?m ?s4))) = _ =>
      apply (replay_value_extends _ _ m s4) end.
    + mono.
    + simpl. rewrite Ht. reflexivity.
Qed.

(** On a valid configuration, a pristine store and at least
    [num_nonmissing] ratings with distinct pairs, the guide returns and
    the model stops at the rate of the first rating. *)
Lemma MMPF_first_step self hp (rs : list (rating num)) k w :
  MMPF.hyperparams self = Some hp →
  valid hp →
  pristine hp w →
  NoDup (keys (take (num_nonmissing hp) rs)) →
  num_nonmissing hp ≤ length rs →
  ∃ sg sm,
    MMPF._guide rnd self rs [] (fresh_run k w []) = Ok () sg ∧
    ratings_itr sg = Some (drop (num_nonmissing hp) rs) ∧
    MMPF._model rnd self rs [] (fresh_run k (store sg) (trace sg)) = Raise IndexError sm ∧
    ratings_itr sm = Some (drop 1 rs) ∧
    store sm = store sg ∧
    (∀ idx, ("obs_rating_{},{}", idx) ∉ names (trace sm)) ∧
    svi_step loss_and_grads (MMPF._model rnd self) (MMPF._guide rnd self) k rs [] w
    = (store sg, Raises IndexError).
Proof.
  intros Hself Hv Hw Hnd Hlen.
  pose proof (guide_run rnd hp Hv self rs [] k w Hself (Nat.le_0_l 1) Hw Hnd) as Hrun.
  pose proof (guide_scalar rnd self hp rs [] Hself (fresh_run k w [])) as Hsc.
  pose proof (guide_prob_sites self hp rs [] (fresh_run k w []) Hself (Nat.le_0_l 1) Hw
                eq_refl eq_refl eq_refl) as Hprob.
  destruct (MMPF._guide rnd self rs [] (fresh_run k w [])) as [[] sg|e sg] eqn:Hg;
    [|destruct Hrun as (_ & Hlt & _); lia].
  destruct Hrun as [_ Hsg]. simpl in Hprob.
  assert (scalar_sites (trace sg)) as HR.
  { apply Hsc. repeat split; try done. intros st Hst. by apply elem_of_nil in Hst. }
  destruct rs as [|[[u0 i0] x0] rest].
  { destruct Hv. simpl in Hlen. lia. }
  pose proof (model_run rnd hp Hv (store sg) (trace sg) HR self
                ((u0, i0, x0) :: rest) u0 i0 x0 rest Hself Hprob eq_refl
                (fresh_run k (store sg) (trace sg))) as Hm.
  destruct (MMPF._model rnd self ((u0, i0, x0) :: rest) []
              (fresh_run k (store sg) (trace sg))) as [[] sm|e sm] eqn:Hmodel.
  { exfalso. apply Hm. constructor; simpl; try done.
    intros n Hn. by apply elem_of_nil in Hn. }
  destruct Hm as [-> Hsm].
  { constructor; simpl; try done. intros n Hn. by apply elem_of_nil in Hn. }
  exists sg, sm. split; [done|]. split; [by apply (gi_itr _ _ _ _ _ _ Hsg)|].
  split; [done|]. split; [by apply (mi_itr _ _ _ _ _ _ Hsm)|].
  split; [by apply (mi_store _ _ _ _ _ _ Hsm)|]. split.
  - intros idx Hin. destruct (mi_names _ _ _ _ _ _ Hsm _ Hin) as [Hlt|Hex].
    + revert Hlt. unfold lt3, pos. simpl. lia.
    + rewrite !elem_of_cons, elem_of_nil in Hex. by destruct Hex as [[=]|[[=]|[]]].
  - unfold svi_step. rewrite Hg, Hmodel. simpl.
    by rewrite (mi_store _ _ _ _ _ _ Hsm).
Qed.

End FirstStep.

Section FirstStepTheorem.
Context {num : Type} `{Numeric num}.
Variable rnd : nat → name → nat → num.
Variable loss_and_grads :
  nat → list (site num) → list (site num) → gmap name (tensor num) →
  result (num * gmap name (tensor num)).

Lemma MMPF_fit_on_valid_input self hp (rs : list (rating num)) num_steps w :
  MMPF.hyperparams self = Some hp →
  valid hp →
  pristine hp w →
  NoDup (keys (take (num_nonmissing hp) rs)) →
  num_nonmissing hp ≤ length rs →
  0 < num_steps →
  ∃ sg sm,
    MMPF._guide rnd self rs [] (fresh_run 0 w []) = Ok () sg ∧
    consumed rs sg = num_nonmissing hp ∧
    MMPF._model rnd self rs [] (fresh_run 0 (store sg) (trace sg)) = Raise IndexError sm ∧
    consumed rs sm = 1 ∧
    (∀ ix, ("obs_rating_{},{}", ix) ∉ names (trace sm)) ∧
    MMPF.fit rnd loss_and_grads self rs num_steps w = (store sg, Raises IndexError).
Proof.
  intros Hself Hv Hw Hnd Hlen Hn.
  destruct (MMPF_first_step rnd loss_and_grads self hp rs 0 w Hself Hv Hw Hnd Hlen)
    as (sg & sm & Hg & Hig & Hm & Him & _ & Hobs & Hstep).
  assert (0 < length rs) as Hpos by (destruct Hv; lia).
  exists sg, sm. repeat split; try done.
  - unfold consumed. rewrite Hig, length_drop. lia.
  - unfold consumed. rewrite Him, length_drop. lia.
  - destruct num_steps as [|n]; [lia|].
    unfold MMPF.fit, MMPF.fit_train. simpl. rewrite Hstep. done.
Qed.


End FirstStepTheorem.

Section ScriptData.
Context {num : Type} `{Numeric num}.

Lemma idx_range u i : (u, i) ∈ Script.idx ↔ u < 10 ∧ i < 20.
Proof.
  unfold Script.idx. rewrite list_elem_of_bind. split.
  - intros (u' & Hin & Hu). apply list_elem_of_bind in Hin as (i' & Hin & Hi).
    apply list_elem_of_singleton in Hin as [= -> ->].
    apply elem_of_seq in Hu, Hi. lia.
  - intros [Hu Hi]. exists u. split; [|apply elem_of_seq; lia].
    apply list_elem_of_bind. exists i. split; [|apply elem_of_seq; lia].
    by apply list_elem_of_singleton.
Qed.

Lemma idx_NoDup : NoDup Script.idx.
Proof. apply (bool_decide_unpack _). vm_compute. reflexivity. Qed.

Lemma idx_length : length Script.idx = 200.
Proof. reflexivity. Qed.

Lemma index2_fill (draw : nat → num) r c u i :
  u < r → i < c → index2 (fill (S2 r c) draw) u i = Returns (draw (u * c + i)).
Proof.
  intros Hu Hi. unfold index2, fill.
  rewrite list_lookup_fmap, lookup_seq_lt by done. simpl.
  rewrite list_lookup_fmap, lookup_seq_lt by done. reflexivity.
Qed.

Lemma comprehension_in_range (draw : nat → num) r c (l : list (nat * nat)) :
  Forall (λ p, p.1 < r ∧ p.2 < c) l →
  ∃ rs, comprehension (fill (S2 r c) draw) l = Returns rs ∧ keys rs = l ∧
        Forall (λ x : rating num, x.2 = draw (x.1.1 * c + x.1.2)) rs.
Proof.
  induction 1 as [|[u i] l [Hu Hi] Hl (rs & IH & Hk & Hx)].
  - by exists [].
  - exists ((u, i, draw (u * c + i)) :: rs). cbn [comprehension].
    rewrite index2_fill, IH by done. split; [done|]. split.
    + unfold keys in *. by rewrite fmap_cons, Hk.
    + by constructor.
Qed.

Lemma script_valid : valid (Script.hyperparams (num:=num)).
Proof. by constructor. Qed.

Lemma script_ratings_spec (shuffled : list (nat * nat)) (draw : nat → num) :
  shuffled ≡ₚ Script.idx →
  ∃ rs, Script.ratings shuffled draw = Returns rs ∧
        keys rs = take 40 shuffled ∧
        length rs = 40 ∧
        NoDup (keys rs) ∧
        Forall (λ x : rating num, x.1.1 < 10 ∧ x.1.2 < 20 ∧ x.2 = draw (x.1.1 * 20 + x.1.2)) rs.
Proof.
  intros Hperm. unfold Script.ratings, Script.raw_ratings.
  assert (Forall (λ p, p.1 < 10 ∧ p.2 < 20) (take 40 shuffled)) as Hrange.
  { apply Forall_forall. intros [u i] Hin. apply idx_range. rewrite <- Hperm.
    apply list_elem_of_lookup in Hin as [j Hj].
    apply lookup_take_Some in Hj as [Hj _]. apply list_elem_of_lookup. by exists j. }
  destruct (comprehension_in_range draw 10 20 _ Hrange) as (rs & Hrs & Hk & Hx).
  exists rs. split; [done|]. split; [done|].
  assert (length rs = 40) as Hlen.
  { rewrite <- (length_fmap (λ r : rating num, r.1) rs). fold (keys rs). rewrite Hk.
    rewrite length_take, Hperm, idx_length. lia. }
  split; [done|]. split.
  - rewrite Hk. apply (sublist_NoDup _ shuffled); [|apply sublist_take].
    rewrite Hperm. apply idx_NoDup.
  - apply Forall_forall. intros [[u i] x] Hin. simpl.
    rewrite Forall_forall in Hx. specialize (Hx _ Hin). simpl in Hx.
    rewrite Forall_forall in Hrange.
    assert ((u, i) ∈ take 40 shuffled) as Hui.
    { rewrite <- Hk. unfold keys. apply list_elem_of_fmap. by exists (u, i, x). }
    specialize (Hrange _ Hui). simpl in Hrange. tauto.
Qed.

End ScriptData.

Section ScriptRun.
Context {num : Type} `{Numeric num}.
Variable rnd : nat → name → nat → num.
Variable loss_and_grads :
  nat → list (site num) → list (site num) → gmap name (tensor num) →
  result (num * gmap name (tensor num)).

(** X7. The data of the script (lines 231-250).  Whatever permutation
    [random.shuffle] leaves in [idx] and whatever the Poisson draws are,
    the comprehension of line 245 raises no [IndexError] and [ratings]
    has exactly [num_nonmissing] = 40 entries, for the first forty pairs
    of [idx] in order, with pairwise distinct pairs, users below
    [num_users], items below [num_items] and [raw_ratings[u, i]] as
    rating; no plate of [hyperparams] is empty.  The script never starts
    training; [mmpf.fit(ratings)] on a fresh store would raise the
    [IndexError] of line 146 in its first step, whatever the budget. *)
Theorem script_builds_valid_data (shuffled : list (nat * nat)) (draw : nat → num) :
  shuffled ≡ₚ Script.idx →
  ∃ ratings,
    Script.ratings shuffled draw = Returns ratings ∧
    keys ratings = take 40 shuffled ∧
    length ratings = num_nonmissing (Script.hyperparams (num:=num)) ∧
    NoDup (keys ratings) ∧
    Forall (λ x : rating num,
              x.1.1 < num_users (Script.hyperparams (num:=num)) ∧
              x.1.2 < num_items (Script.hyperparams (num:=num)) ∧
              x.2 = draw (x.1.1 * 20 + x.1.2)) ratings ∧
    valid (Script.hyperparams (num:=num)) ∧
    (∀ n, ∃ w', MMPF.fit rnd loss_and_grads Script.mmpf ratings (S n) ∅ = (w', Raises IndexError)).
Proof.
  intros Hperm.
  destruct (script_ratings_spec shuffled draw Hperm) as (rs & Hrs & Hk & Hlen & Hnd & Hx).
  exists rs. repeat split; try done; try apply script_valid.
  intros n.
  destruct (MMPF_fit_on_valid_input rnd loss_and_grads Script.mmpf Script.hyperparams rs (S n) ∅)
    as (sg & sm & _ & _ & _ & _ & _ & Hfit).
  - reflexivity.
  - apply script_valid.
  - apply pristine_empty.
  - rewrite take_ge by (simpl; lia). done.
  - simpl. lia.
  - lia.
  - by exists (store sg).
Qed.

End ScriptRun.



Lemma script_builds_valid_data_witness :
  ∃ ratings,
    Script.ratings Script.idx (λ _, 3%Z) = Returns ratings ∧
    keys ratings = take 40 Script.idx ∧
    length ratings = num_nonmissing (Script.hyperparams (num:=Z)) ∧
    NoDup (keys ratings) ∧
    Forall (λ x : rating Z,
              x.1.1 < num_users (Script.hyperparams (num:=Z)) ∧
              x.1.2 < num_items (Script.hyperparams (num:=Z)) ∧
              x.2 = (λ _, 3%Z) (x.1.1 * 20 + x.1.2)) ratings ∧
    valid (Script.hyperparams (num:=Z)) ∧
    (∀ n, ∃ w', MMPF.fit scenario_rnd scenario_loss Script.mmpf ratings (S n) ∅
                = (w', Raises IndexError)).
Proof.
  apply (script_builds_valid_data scenario_rnd scenario_loss Script.idx (λ _, 3%Z)).
  reflexivity.
Defined.

Section Logs.
Context {num : Type} `{Numeric num}.
Variable rnd : nat → name → nat → num.















End Logs.

Section GuideFunctional.
Context {num : Type} `{Numeric num}.
Variable rnd : nat → name → nat → num.





End GuideFunctional.



(** ** Ratings that repeat a pair *)

Section DuplicatePairs.
Context {num : Type} `{Numeric num}.
Variable rnd : nat → name → nat → num.
Variable hp : hyper num.
Hypothesis Hvalid : valid hp.








End DuplicatePairs.

(** ** The guide up to its rating loop *)

Section GuidePrefix.
Context {num : Type} `{Numeric num}.
Variable rnd : nat → name → nat → num.
Variable hp : hyper num.


Ltac side :=
  first [ by eexists | rk | by apply not_elem_of_nil | (left; rk) | by auto ].



End GuidePrefix.

(** ** Ways in which the rating loop of the guide fails *)

Section RatingLoopFailures.
Context {num : Type} `{Numeric num}.
Variable rnd : nat → name → nat → num.
Variable loss_and_grads :
  nat → list (site num) → list (site num) → gmap name (tensor num) →
  result (num * gmap name (tensor num)).






End RatingLoopFailures.



(** ** The store a guide run leaves, and what [fit] leaves behind *)

Section GuideStore.
Context {num : Type} `{Numeric num}.


End GuideStore.

(** ** How many sites and parameters *)

Section Counting.
Context {num : Type} `{Numeric num}.



















End Counting.



(** ** The estimator is never reached *)

Section Estimator.
Context {num : Type} `{Numeric num}.
Variable rnd : nat → name → nat → num.

Lemma MMPF_step_ignores_estimator loss_and_grads loss_and_grads' self
    (rs : list (rating num)) extra k w :
  (∀ hp, MMPF.hyperparams self = Some hp → pristine hp w) →
  svi_step loss_and_grads (MMPF._model rnd self) (MMPF._guide rnd self) k rs extra w
  = svi_step loss_and_grads' (MMPF._model rnd self) (MMPF._guide rnd self) k rs extra w.
Proof.
  intros Hw.
  destruct (MMPF_step_raises rnd loss_and_grads self rs extra k w Hw) as (w1 & e1 & H1).
  destruct (MMPF_step_raises rnd loss_and_grads' self rs extra k w Hw) as (w2 & e2 & H2).
  rewrite H1, H2. revert H1 H2. unfold svi_step.
  destruct (MMPF._guide rnd self rs extra (fresh_run k w [])) as [[] s|e s] eqn:Hg.
  - assert (scalar_sites (trace s)) as Hsc.
    { destruct (MMPF.hyperparams self) as [hp|] eqn:Hself.
      - pose proof (guide_scalar rnd self hp rs extra Hself (fresh_run k w [])) as Hrun.
        rewrite Hg in Hrun. apply Hrun. repeat split; try done; [by apply Hw|].
        intros st Hst. by apply elem_of_nil in Hst.
      - unfold MMPF._guide in Hg. rewrite Hself in Hg.
        destruct extra as [|? [|? ?]]; discriminate Hg. }
    pose proof (model_never_returns rnd self (trace s) rs extra Hsc
                  (fresh_run k (store s) (trace s))) as Hm.
    destruct (MMPF._model rnd self rs extra (fresh_run k (store s) (trace s)))
      as [[] s'|e s'].
    + exfalso. apply Hm. repeat split; try done. intros st Hst. by apply elem_of_nil in Hst.
    + congruence.
  - congruence.
Qed.

Lemma BPF_step_ignores_estimator loss_and_grads loss_and_grads' self
    (rs : list (rating num)) h k w :
  svi_step loss_and_grads (BPF._model rnd self) (BPF._guide rnd self) k rs [h] w
  = svi_step loss_and_grads' (BPF._model rnd self) (BPF._guide rnd self) k rs [h] w.
Proof.
  unfold svi_step.
  destruct (BPF._guide rnd self rs [h] (fresh_run k w [])) as [[] s|e s]; [|done].
  by rewrite BPF_model_two_arguments.
Qed.

(** X14. Neither [fit] method ever reaches the loss estimator or the
    optimizer: for every object, ratings sequence and budget, and for
    [MMPF] every pristine store, for [BPF] every store and [hyperparams]
    argument, the result and the store that [fit] leaves are the same
    for any two estimators.  No loss is ever computed and no parameter
    is ever updated. *)
Theorem fit_never_reaches_the_estimator
    (loss_and_grads loss_and_grads' :
       nat → list (site num) → list (site num) → gmap name (tensor num) →
       result (num * gmap name (tensor num)))
    (rs : list (rating num)) (num_steps : nat) :
  (∀ self w, (∀ hp, MMPF.hyperparams self = Some hp → pristine hp w) →
     MMPF.fit rnd loss_and_grads self rs num_steps w
     = MMPF.fit rnd loss_and_grads' self rs num_steps w) ∧
  (∀ self hyperparams w,
     BPF.fit rnd loss_and_grads self rs hyperparams num_steps w
     = BPF.fit rnd loss_and_grads' self rs hyperparams num_steps w).
Proof.
  split.
  - intros self w Hw. unfold MMPF.fit, MMPF.fit_train.
    destruct num_steps as [|n]; [done|]. simpl.
    rewrite (MMPF_step_ignores_estimator loss_and_grads loss_and_grads' self rs [] 0 w Hw).
    destruct (MMPF_step_raises rnd loss_and_grads' self rs [] 0 w Hw) as (w' & e & ->).
    done.
  - intros self hyperparams w. unfold BPF.fit.
    destruct (BPF.fit_hyperparams self hyperparams) as [[self' h]|e]; [|done].
    unfold BPF.fit_train. destruct num_steps as [|n]; [done|]. simpl.
    rewrite (BPF_step_ignores_estimator loss_and_grads loss_and_grads' self' rs h 0 w).
    destruct (BPF_step_raises rnd loss_and_grads' self' rs h 0 w) as (w' & e & ->).
    done.
Qed.

End Estimator.

(** ** The model replays the guide's context probabilities *)

Section ReplayedProbabilities.
Context {num : Type} `{Numeric num}.
Variable rnd : nat → name → nat → num.





End ReplayedProbabilities.





